(** * Study-room coordinator of script.js: model and properties

    The development embeds the parts of [src/script.js] that implement the
    peer-mesh study room ([StudyRoom], lines 1277-1454), the event bus
    ([events], lines 362-380), [errorHandler.report] (lines 410-414) and the
    leave-room handler of the UI (lines 1571-1577).

    Conventions of the embedding:
    - JavaScript strings are ASCII strings ([string]);
    - a [Map] is an association list in insertion order ([JSMap]);
    - an object handed out by the transport library (a media call, a data
      connection, a media stream) is a record carrying a numeric handle that
      stands for its identity, and the [peer] field of the library object;
    - a function of the source that mutates [StudyRoom], calls the transport
      or publishes on the bus is a computation in the monad [M]: it threads a
      [World] and completes normally, abruptly (a thrown exception; the
      mutations made so far stay) or never (a promise that is never settled);
    - what an awaited platform call yields (a capture stream or a rejection, a
      transport identity or an error, a fresh UUID, the clock) is an argument
      of the function that awaits it;
    - every call the code makes on the transport and every [events.emit] is
      appended to the [trace] of the world.  A call on the transport is
      recorded and nothing more: the callbacks that the transport library
      runs in response (PeerJS runs the ['close'] callback of a call inside
      [call.close()], and those of the connections of a [Peer] inside
      [peer.destroy()]) are events of their own, see [deliver].  The trace
      of a command therefore lists what the coordinator itself calls and
      publishes;
    - [toUpperCase] and [toLowerCase] map the ASCII letters; the functions
      of JavaScript also map letters outside ASCII;
    - an event name of the bus is not a name that every object inherits
      ([toString], [constructor], ...): for those [events.listeners[event]]
      is not a [Set] and [on], [off] and [emit] throw. *)

From Stdlib Require Import List String Ascii Bool Arith ZArith Lia.
Import ListNotations.
Local Open Scope string_scope.
Local Open Scope nat_scope.

(** ** JavaScript values and strings *)

(** The data a remote peer can send: any structured value. *)
#[warnings="-register-all"]
Inductive JSVal : Type :=
| JUndefined
| JNull
| JBool (b : bool)
| JNum (z : Z)
| JStr (s : string)
| JObj (fields : list (string * JSVal)).

Inductive JSError : Type :=
| TypeError (msg : string)
| Error (msg : string)
| HostError (msg : string).

Fixpoint assoc {V : Type} (k : string) (l : list (string * V)) : option V :=
  match l with
  | [] => None
  | (k', v) :: l' => if String.eqb k' k then Some v else assoc k l'
  end.

(** [v.k] for one of the keys the coordinator reads ([type], [sender],
    [content]): reading a property of [undefined] or [null] throws, a missing
    property and a property of a primitive are [undefined]. *)
Definition get_prop (v : JSVal) (k : string) : JSError + JSVal :=
  match v with
  | JUndefined | JNull =>
      inl (TypeError (String.append "Cannot read properties of undefined or null: " k))
  | JObj fields =>
      match assoc k fields with
      | Some x => inr x
      | None => inr JUndefined
      end
  | _ => inr JUndefined
  end.

(** [v === 'chat'], the comparison a [switch] makes. *)
Definition strict_eq_str (v : JSVal) (s : string) : bool :=
  match v with
  | JStr s' => String.eqb s' s
  | _ => false
  end.

Definition is_lower (c : ascii) : bool :=
  (97 <=? nat_of_ascii c) && (nat_of_ascii c <=? 122).

Definition is_upper (c : ascii) : bool :=
  (65 <=? nat_of_ascii c) && (nat_of_ascii c <=? 90).

Definition is_digit (c : ascii) : bool :=
  (48 <=? nat_of_ascii c) && (nat_of_ascii c <=? 57).

Definition upper_char (c : ascii) : ascii :=
  if is_lower c then ascii_of_nat (nat_of_ascii c - 32) else c.

(** [s.toUpperCase()] on an ASCII string. *)
Fixpoint toUpperCase (s : string) : string :=
  match s with
  | EmptyString => EmptyString
  | String c s' => String (upper_char c) (toUpperCase s')
  end.

(** [s.slice(0, n)]. *)
Fixpoint slice0 (n : nat) (s : string) : string :=
  match n, s with
  | S n', String c s' => String c (slice0 n' s')
  | _, _ => EmptyString
  end.

Fixpoint string_forallb (p : ascii -> bool) (s : string) : bool :=
  match s with
  | EmptyString => true
  | String c s' => p c && string_forallb p s'
  end.

(** The regular expression [^[A-Z0-9]{6}$]. *)
Definition matches_room_code (s : string) : bool :=
  (String.length s =? 6) && string_forallb (fun c => is_upper c || is_digit c) s.

Definition is_hex_lower (c : ascii) : bool :=
  is_digit c || ((97 <=? nat_of_ascii c) && (nat_of_ascii c <=? 102)).

Fixpoint uuid_chars (pos : nat) (s : string) : bool :=
  match s with
  | EmptyString => true
  | String c s' =>
      (if (pos =? 8) || (pos =? 13) || (pos =? 18) || (pos =? 23)
       then Ascii.eqb c "-"%char
       else is_hex_lower c)
      && uuid_chars (S pos) s'
  end.

(** What [crypto.randomUUID()] returns: 36 characters, lower-case
    hexadecimal digits in groups of 8-4-4-4-12 separated by hyphens. *)
Definition uuid_format (s : string) : bool :=
  (String.length s =? 36) && uuid_chars 0 s.

(** ** [Map] in insertion order *)

Module JSMap.
Section Ops.
Context {V : Type}.

Definition t : Type := list (string * V).

Definition empty : t := [].

Definition get (m : t) (k : string) : option V := assoc k m.

(** [m.set(k, v)]: an existing key keeps its position. *)
Fixpoint set (m : t) (k : string) (v : V) : t :=
  match m with
  | [] => [(k, v)]
  | (k', v') :: m' =>
      if String.eqb k' k then (k', v) :: m' else (k', v') :: set m' k v
  end.

(** [m.delete(k)]. *)
Fixpoint delete (m : t) (k : string) : t :=
  match m with
  | [] => []
  | (k', v') :: m' =>
      if String.eqb k' k then m' else (k', v') :: delete m' k
  end.

Definition keys (m : t) : list string := map fst m.

(** The values in the order [m.forEach] visits them. *)
Definition values (m : t) : list V := map snd m.
End Ops.
Arguments t : clear implicits.
End JSMap.

(** ** The event bus ([events], lines 362-380) *)

Module EventBus.
Section Bus.
(** [Data] is what is published, [W] the state subscribers act on. *)
Variables Data W : Type.

Inductive Outcome : Type :=
| Returned (w : W)
| Threw (e : JSError) (w : W).

(** A subscriber: [cb_id] stands for the identity of the function object. *)
Record Callback : Type := {
  cb_id : nat;
  cb_run : Data -> W -> Outcome
}.

(** [events.listeners]: event name to a [Set] of callbacks. *)
Definition Listeners : Type := JSMap.t (list Callback).

Definition set_has (s : list Callback) (cb : Callback) : bool :=
  existsb (fun c => cb_id c =? cb_id cb) s.

(** [Set.prototype.add]. *)
Definition set_add (s : list Callback) (cb : Callback) : list Callback :=
  if set_has s cb then s else s ++ [cb].

(** [Set.prototype.delete]. *)
Definition set_delete (s : list Callback) (cb : Callback) : list Callback :=
  filter (fun c => negb (cb_id c =? cb_id cb)) s.

Definition on (ls : Listeners) (event : string) (cb : Callback) : Listeners :=
  match JSMap.get ls event with
  | None => JSMap.set ls event (set_add [] cb)
  | Some s => JSMap.set ls event (set_add s cb)
  end.

Definition off (ls : Listeners) (event : string) (cb : Callback) : Listeners :=
  match JSMap.get ls event with
  | None => ls
  | Some s => JSMap.set ls event (set_delete s cb)
  end.

(** [set.forEach(callback => callback(data))]: nothing catches what a
    callback throws, so the exception leaves the loop.  The second
    component lists the callbacks that were invoked, in order. *)
Fixpoint forEach (cbs : list Callback) (data : Data) (w : W)
  : Outcome * list nat :=
  match cbs with
  | [] => (Returned w, [])
  | cb :: rest =>
      match cb_run cb data w with
      | Returned w' =>
          let (o, invoked) := forEach rest data w' in
          (o, cb_id cb :: invoked)
      | Threw e w' => (Threw e w', [cb_id cb])
      end
  end.

Definition emit (ls : Listeners) (event : string) (data : Data) (w : W)
  : Outcome * list nat :=
  match JSMap.get ls event with
  | Some cbs => forEach cbs data w
  | None => (Returned w, [])
  end.

(** The subscribers registered for [event] when [emit] is called. *)
Definition subscribers (ls : Listeners) (event : string) : list nat :=
  match JSMap.get ls event with
  | Some cbs => map cb_id cbs
  | None => []
  end.
End Bus.
Arguments Returned {W} w.
Arguments Threw {W} e w.
Arguments cb_id {Data W} c.
Arguments cb_run {Data W} c data w.
Arguments Build_Callback {Data W} cb_id cb_run.
Arguments on {Data W} ls event cb.
Arguments off {Data W} ls event cb.
Arguments forEach {Data W} cbs data w.
Arguments emit {Data W} ls event data w.
Arguments subscribers {Data W} ls event.
End EventBus.

(** ** The study room ([StudyRoom], lines 1277-1454) *)

Module StudyRoom.

Definition PeerId : Type := string.
Definition Time : Type := Z.

(** A [MediaStream] and the handles of its tracks. *)
Record MediaStream : Type := {
  stream_handle : nat;
  stream_tracks : list nat
}.

(** A media call of the transport library; [call_peer] is [call.peer]. *)
Record MediaConnection : Type := {
  call_handle : nat;
  call_peer : PeerId
}.

(** A data connection of the transport library; [conn_peer] is [conn.peer]. *)
Record DataConnection : Type := {
  conn_handle : nat;
  conn_peer : PeerId
}.

(** The local transport identity, [new Peer(id, ...)]. *)
Record Peer : Type := { peer_id : string }.

(** [AppState.user] when somebody is signed in. *)
Record User : Type := {
  name : string;
  email : string;
  imageUrl : string
}.

Definition call_eqb (a b : MediaConnection) : bool :=
  (call_handle a =? call_handle b) && String.eqb (call_peer a) (call_peer b).

Definition conn_eqb (a b : DataConnection) : bool :=
  (conn_handle a =? conn_handle b) && String.eqb (conn_peer a) (conn_peer b).

Definition peer_eqb (a b : Peer) : bool := String.eqb (peer_id a) (peer_id b).

(** What is passed to [events.emit] by the study room and the error handler. *)
Inductive EventData : Type :=
| PeerStream (peerId : PeerId) (stream : MediaStream)
| PeerIdData (peerId : PeerId)
| ChatMessage (sender content : JSVal) (timestamp : Time)
| StreamData (stream : MediaStream)
| ErrorData (error : JSError) (context : string).

(** The calls that leave the coordinator, in the order they are made. *)
Inductive Action : Type :=
| Emit (event : string) (data : EventData)
| NewPeer (p : Peer)
| PeerDestroy (p : Peer)
| PeerCall (p : Peer) (peerId : PeerId) (stream : option MediaStream)
    (call : MediaConnection)
| PeerConnect (p : Peer) (peerId : PeerId) (conn : DataConnection)
| CallAnswer (call : MediaConnection) (stream : option MediaStream)
| CallClose (call : MediaConnection)
| ConnSend (conn : DataConnection) (data : JSVal)
| TrackStop (track : nat)
| HostShowError (message : string).

(** The five fields of [StudyRoom], [AppState.user], and what the model adds:
    whether the top-level [this] of the script has a callable [showError]
    (the [this] of the arrow function [errorHandler.report]), the next free
    object handle of the transport, the objects on which the coordinator has
    installed its callbacks, and the trace. *)
Record World : Type := {
  peers : JSMap.t MediaConnection;
  localStream : option MediaStream;
  roomCode : option string;
  peer : option Peer;
  connections : JSMap.t DataConnection;
  user : option User;
  hostShowError : bool;
  nextHandle : nat;
  peerHandlers : list Peer;
  callHandlers : list MediaConnection;
  connHandlers : list DataConnection;
  trace : list Action
}.

Definition initial (u : option User) (host : bool) : World :=
  {| peers := JSMap.empty; localStream := None; roomCode := None;
     peer := None; connections := JSMap.empty; user := u;
     hostShowError := host; nextHandle := 0; peerHandlers := [];
     callHandlers := []; connHandlers := []; trace := [] |}.

Definition with_peers (m : JSMap.t MediaConnection) (w : World) : World :=
  {| peers := m; localStream := localStream w; roomCode := roomCode w;
     peer := peer w; connections := connections w; user := user w;
     hostShowError := hostShowError w; nextHandle := nextHandle w;
     peerHandlers := peerHandlers w; callHandlers := callHandlers w;
     connHandlers := connHandlers w; trace := trace w |}.

Definition with_localStream (s : option MediaStream) (w : World) : World :=
  {| peers := peers w; localStream := s; roomCode := roomCode w;
     peer := peer w; connections := connections w; user := user w;
     hostShowError := hostShowError w; nextHandle := nextHandle w;
     peerHandlers := peerHandlers w; callHandlers := callHandlers w;
     connHandlers := connHandlers w; trace := trace w |}.

Definition with_roomCode (c : option string) (w : World) : World :=
  {| peers := peers w; localStream := localStream w; roomCode := c;
     peer := peer w; connections := connections w; user := user w;
     hostShowError := hostShowError w; nextHandle := nextHandle w;
     peerHandlers := peerHandlers w; callHandlers := callHandlers w;
     connHandlers := connHandlers w; trace := trace w |}.

Definition with_peer (p : option Peer) (w : World) : World :=
  {| peers := peers w; localStream := localStream w; roomCode := roomCode w;
     peer := p; connections := connections w; user := user w;
     hostShowError := hostShowError w; nextHandle := nextHandle w;
     peerHandlers := peerHandlers w; callHandlers := callHandlers w;
     connHandlers := connHandlers w; trace := trace w |}.

Definition with_connections (m : JSMap.t DataConnection) (w : World) : World :=
  {| peers := peers w; localStream := localStream w; roomCode := roomCode w;
     peer := peer w; connections := m; user := user w;
     hostShowError := hostShowError w; nextHandle := nextHandle w;
     peerHandlers := peerHandlers w; callHandlers := callHandlers w;
     connHandlers := connHandlers w; trace := trace w |}.

Definition with_nextHandle (n : nat) (w : World) : World :=
  {| peers := peers w; localStream := localStream w; roomCode := roomCode w;
     peer := peer w; connections := connections w; user := user w;
     hostShowError := hostShowError w; nextHandle := n;
     peerHandlers := peerHandlers w; callHandlers := callHandlers w;
     connHandlers := connHandlers w; trace := trace w |}.

Definition with_peerHandlers (l : list Peer) (w : World) : World :=
  {| peers := peers w; localStream := localStream w; roomCode := roomCode w;
     peer := peer w; connections := connections w; user := user w;
     hostShowError := hostShowError w; nextHandle := nextHandle w;
     peerHandlers := l; callHandlers := callHandlers w;
     connHandlers := connHandlers w; trace := trace w |}.

Definition with_callHandlers (l : list MediaConnection) (w : World) : World :=
  {| peers := peers w; localStream := localStream w; roomCode := roomCode w;
     peer := peer w; connections := connections w; user := user w;
     hostShowError := hostShowError w; nextHandle := nextHandle w;
     peerHandlers := peerHandlers w; callHandlers := l;
     connHandlers := connHandlers w; trace := trace w |}.

Definition with_connHandlers (l : list DataConnection) (w : World) : World :=
  {| peers := peers w; localStream := localStream w; roomCode := roomCode w;
     peer := peer w; connections := connections w; user := user w;
     hostShowError := hostShowError w; nextHandle := nextHandle w;
     peerHandlers := peerHandlers w; callHandlers := callHandlers w;
     connHandlers := l; trace := trace w |}.

Definition with_trace (t : list Action) (w : World) : World :=
  {| peers := peers w; localStream := localStream w; roomCode := roomCode w;
     peer := peer w; connections := connections w; user := user w;
     hostShowError := hostShowError w; nextHandle := nextHandle w;
     peerHandlers := peerHandlers w; callHandlers := callHandlers w;
     connHandlers := connHandlers w; trace := t |}.

(** *** The monad of coordinator code *)

Inductive Completion (A : Type) : Type :=
| Normal (a : A)
| Abrupt (e : JSError)
| Pending.
Arguments Normal {A} a.
Arguments Abrupt {A} e.
Arguments Pending {A}.

Definition M (A : Type) : Type := World -> Completion A * World.

Definition ret {A : Type} (a : A) : M A := fun w => (Normal a, w).

Definition bind {A B : Type} (m : M A) (k : A -> M B) : M B :=
  fun w =>
    match m w with
    | (Normal a, w') => k a w'
    | (Abrupt e, w') => (Abrupt e, w')
    | (Pending, w') => (Pending, w')
    end.

Definition throw {A : Type} (e : JSError) : M A := fun w => (Abrupt e, w).

Definition gets {A : Type} (f : World -> A) : M A := fun w => (Normal (f w), w).

Definition modify (f : World -> World) : M unit := fun w => (Normal tt, f w).

Definition exec {A : Type} (m : M A) (w : World) : World := snd (m w).

Definition completion {A : Type} (m : M A) (w : World) : Completion A :=
  fst (m w).

Declare Scope room_scope.
Delimit Scope room_scope with room.
Notation "x <- m ;; k" := (bind m (fun x => k))
  (at level 61, m at next level, right associativity) : room_scope.
Notation "m ;; k" := (bind m (fun _ => k))
  (at level 61, right associativity) : room_scope.
Local Open Scope room_scope.

(** One call that leaves the coordinator. *)
Definition act (a : Action) : M unit :=
  modify (fun w => with_trace (trace w ++ [a]) w).

(** [events.emit(event, data)], seen from the coordinator: the call is
    recorded; the subscribers are those of [EventBus] and are taken to
    return. *)
Definition emit (event : string) (data : EventData) : M unit :=
  act (Emit event data).

(** [xs.forEach(x => f(x))]. *)
Fixpoint forEach {A : Type} (xs : list A) (f : A -> M unit) : M unit :=
  match xs with
  | [] => ret tt
  | x :: xs' => f x ;; forEach xs' f
  end.

(** Run a callback once per time it was installed. *)
Fixpoint times (n : nat) (m : M unit) : M unit :=
  match n with
  | O => ret tt
  | S n' => m ;; times n' m
  end.

Definition installed {A : Type} (eqb : A -> A -> bool) (x : A) (l : list A)
  : nat := List.length (filter (eqb x) l).

(** *** [errorHandler.report] (lines 410-414) *)

Definition error_message (e : JSError) : string :=
  match e with
  | TypeError m | Error m | HostError m => m
  end.

(** [error.message || 'An unexpected error occurred']. *)
Definition message_or_default (e : JSError) : string :=
  if String.eqb (error_message e) "" then "An unexpected error occurred"
  else error_message e.

(** [console.error] is not recorded.  [report] is an arrow function, so its
    [this] is the top-level one, not [errorHandler]. *)
Definition report (error : JSError) (context : string) : M unit :=
  emit "error" (ErrorData error context) ;;
  host <- gets hostShowError ;;
  if (host : bool) then act (HostShowError (message_or_default error))
  else throw (TypeError "this.showError is not a function").

(** *** Callbacks installed on calls and connections *)

(** [handleCall] (lines 1366-1376). *)
Definition handleCall (call : MediaConnection) : M unit :=
  modify (fun w => with_callHandlers (callHandlers w ++ [call]) w) ;;
  modify (fun w => with_peers (JSMap.set (peers w) (call_peer call) call) w).

(** The ['stream'] callback of [handleCall]. *)
Definition on_call_stream (call : MediaConnection) (remoteStream : MediaStream)
  : M unit :=
  emit "peer:stream" (PeerStream (call_peer call) remoteStream).

(** The ['close'] callback of [handleCall]. *)
Definition on_call_close (call : MediaConnection) : M unit :=
  emit "peer:disconnect" (PeerIdData (call_peer call)).

(** [handlePeerMessage] (lines 1394-1405); [now] is [new Date()]. *)
Definition handlePeerMessage (peerId : PeerId) (message : JSVal) (now : Time)
  : M unit :=
  match get_prop message "type" with
  | inl e => throw e
  | inr type =>
      if strict_eq_str type "chat" then
        match get_prop message "sender", get_prop message "content" with
        | inr sender, inr content =>
            emit "chat:message" (ChatMessage sender content now)
        | inl e, _ | _, inl e => throw e
        end
      else ret tt
  end.

(** [handleConnection] (lines 1378-1392). *)
Definition handleConnection (conn : DataConnection) : M unit :=
  modify (fun w => with_connHandlers (connHandlers w ++ [conn]) w).

(** The ['open'] callback of [handleConnection]. *)
Definition on_conn_open (conn : DataConnection) : M unit :=
  modify (fun w =>
    with_connections (JSMap.set (connections w) (conn_peer conn) conn) w) ;;
  emit "peer:connect" (PeerIdData (conn_peer conn)).

(** The ['data'] callback of [handleConnection]. *)
Definition on_conn_data (conn : DataConnection) (data : JSVal) (now : Time)
  : M unit :=
  handlePeerMessage (conn_peer conn) data now.

(** The ['close'] callback of [handleConnection]. *)
Definition on_conn_close (conn : DataConnection) : M unit :=
  modify (fun w =>
    with_connections (JSMap.delete (connections w) (conn_peer conn)) w) ;;
  emit "peer:disconnect" (PeerIdData (conn_peer conn)).

(** *** Media *)

(** What [navigator.mediaDevices.getUserMedia] settles to. *)
Inductive MediaOutcome : Type :=
| MediaGranted (stream : MediaStream)
| MediaDenied (error : JSError).

(** [initializeMedia] (lines 1426-1437).  Nothing in the [catch] block
    guards [errorHandler.report], so what [report] throws replaces the
    [Error] of line 1435. *)
Definition initializeMedia (media : MediaOutcome) : M unit :=
  match media with
  | MediaGranted stream =>
      modify (with_localStream (Some stream)) ;;
      emit "media:initialized" (StreamData stream)
  | MediaDenied error =>
      report error "media-initialization" ;;
      throw (Error "Failed to access camera/microphone")
  end.

(** [stopMedia] (lines 1439-1453). *)
Definition stopMedia : M unit :=
  (stream <- gets localStream ;;
   match stream with
   | Some s =>
       forEach (stream_tracks s) (fun track => act (TrackStop track)) ;;
       modify (with_localStream None)
   | None => ret tt
   end) ;;
  (ps <- gets peers ;;
   forEach (JSMap.values ps) (fun p => act (CallClose p))) ;;
  modify (with_peers JSMap.empty) ;;
  modify (with_connections JSMap.empty) ;;
  p <- gets peer ;;
  match p with
  | Some p' => act (PeerDestroy p') ;; modify (with_peer None)
  | None => ret tt
  end.

(** *** Transport identity *)

(** What the new [Peer] reports first: ['open'] or ['error']. *)
Inductive PeerOutcome : Type :=
| PeerOpened
| PeerFailed (error : JSError).

(** [setupPeerEvents] (lines 1327-1340). *)
Definition setupPeerEvents : M unit :=
  p <- gets peer ;;
  match p with
  | Some p' => modify (fun w => with_peerHandlers (peerHandlers w ++ [p']) w)
  | None => throw (TypeError "Cannot read properties of null (reading 'on')")
  end.

(** [initializePeer] (lines 1298-1325); [id] is the [utils.generateId()] of
    line 1304.  [console.log] is not recorded.  In the ['error'] callback
    [reject] comes after [errorHandler.report]: when [report] throws, the
    promise is never settled. *)
Definition initializePeer (id : string) (outcome : PeerOutcome) : M unit :=
  (p <- gets peer ;;
   match p with
   | Some p' => act (PeerDestroy p')
   | None => ret tt
   end) ;;
  modify (with_peer (Some {| peer_id := id |})) ;;
  act (NewPeer {| peer_id := id |}) ;;
  match outcome with
  | PeerOpened => setupPeerEvents
  | PeerFailed error =>
      fun w =>
        match report error "peer-initialization" w with
        | (Normal _, w') => (Abrupt error, w')
        | (_, w') => (Pending, w')
        end
  end.

(** *** Peers *)

(** [this.peer.call(peerId, stream)]: the transport hands out a new call
    object whose [peer] is [peerId]. *)
Definition transport_call (p : Peer) (peerId : PeerId) : M MediaConnection :=
  h <- gets nextHandle ;;
  stream <- gets localStream ;;
  modify (with_nextHandle (S h)) ;;
  act (PeerCall p peerId stream {| call_handle := h; call_peer := peerId |}) ;;
  ret {| call_handle := h; call_peer := peerId |}.

(** [this.peer.connect(peerId)]: likewise for a data connection. *)
Definition transport_connect (p : Peer) (peerId : PeerId) : M DataConnection :=
  h <- gets nextHandle ;;
  modify (with_nextHandle (S h)) ;;
  act (PeerConnect p peerId {| conn_handle := h; conn_peer := peerId |}) ;;
  ret {| conn_handle := h; conn_peer := peerId |}.

(** [connectToPeer] (lines 1356-1364). *)
Definition connectToPeer (peerId : PeerId) : M unit :=
  p <- gets peer ;;
  match p with
  | None => throw (TypeError "Cannot read properties of null (reading 'call')")
  | Some p' =>
      call <- transport_call p' peerId ;;
      handleCall call ;;
      conn <- transport_connect p' peerId ;;
      handleConnection conn
  end.

(** [getRoomPeers] (lines 1350-1354). *)
Definition getRoomPeers : M (list PeerId) := ret [].

(** [connectToRoom] (lines 1342-1348). *)
Definition connectToRoom : M unit :=
  roomPeers <- getRoomPeers ;;
  forEach roomPeers connectToPeer.

(** *** Commands *)

(** [createRoom] (lines 1284-1289); [uuid] is the [utils.generateId()] of
    line 1285, [peerUuid] the one of line 1304. *)
Definition createRoom (uuid : string) (media : MediaOutcome)
    (peerUuid : string) (outcome : PeerOutcome) : M (option string) :=
  modify (with_roomCode (Some (toUpperCase (slice0 6 uuid)))) ;;
  initializeMedia media ;;
  initializePeer peerUuid outcome ;;
  gets roomCode.

(** [joinRoom] (lines 1291-1296). *)
Definition joinRoom (code : string) (media : MediaOutcome)
    (peerUuid : string) (outcome : PeerOutcome) : M unit :=
  modify (with_roomCode (Some (toUpperCase code))) ;;
  initializeMedia media ;;
  initializePeer peerUuid outcome ;;
  connectToRoom.

(** [AppState.user?.name || 'Anonymous']. *)
Definition sender_name (u : option User) : string :=
  match u with
  | Some u' => if String.eqb (name u') "" then "Anonymous" else name u'
  | None => "Anonymous"
  end.

(** The object [data] of [sendMessage]. *)
Definition chat_payload (sender message : string) : JSVal :=
  JObj [("type", JStr "chat"); ("sender", JStr sender);
        ("content", JStr message)].

(** [sendMessage] (lines 1407-1424); [now] is [new Date()]. *)
Definition sendMessage (message : string) (now : Time) : M unit :=
  u <- gets user ;;
  let data := chat_payload (sender_name u) message in
  (cs <- gets connections ;;
   forEach (JSMap.values cs) (fun conn => act (ConnSend conn data))) ;;
  emit "chat:message"
    (ChatMessage (JStr (sender_name u)) (JStr message) now).

(** The leave-room handler of the UI (lines 1571-1577), once the user has
    confirmed; the re-rendering that follows is outside the model. *)
Definition leaveRoom : M unit :=
  stopMedia ;;
  modify (with_roomCode None).

(** *** What the transport delivers

    The ['open'] and ['error'] callbacks of the [Peer] itself are installed
    by [initializePeer]; what the [Peer] reports first is the [outcome]
    argument of [initializePeer], and later reports of the two are not among
    the events below. *)

Inductive TransportEvent : Type :=
| IncomingCall (p : Peer) (call : MediaConnection)
| IncomingConnection (p : Peer) (conn : DataConnection)
| CallStream (call : MediaConnection) (remoteStream : MediaStream)
| CallClosed (call : MediaConnection)
| ConnOpen (conn : DataConnection)
| ConnData (conn : DataConnection) (data : JSVal) (now : Time)
| ConnClosed (conn : DataConnection).

(** The ['call'] callback of [setupPeerEvents]; neither call in its [try]
    block throws in the model, so the [catch] is not entered. *)
Definition on_peer_call (call : MediaConnection) : M unit :=
  stream <- gets localStream ;;
  act (CallAnswer call stream) ;;
  handleCall call.

(** The ['connection'] callback of [setupPeerEvents]. *)
Definition on_peer_connection (conn : DataConnection) : M unit :=
  handleConnection conn.

(** An event reaches each callback the coordinator installed for it on that
    object, and no other. *)
Definition deliver (e : TransportEvent) : M unit :=
  match e with
  | IncomingCall p call =>
      n <- gets (fun w => installed peer_eqb p (peerHandlers w)) ;;
      times n (on_peer_call call)
  | IncomingConnection p conn =>
      n <- gets (fun w => installed peer_eqb p (peerHandlers w)) ;;
      times n (on_peer_connection conn)
  | CallStream call remoteStream =>
      n <- gets (fun w => installed call_eqb call (callHandlers w)) ;;
      times n (on_call_stream call remoteStream)
  | CallClosed call =>
      n <- gets (fun w => installed call_eqb call (callHandlers w)) ;;
      times n (on_call_close call)
  | ConnOpen conn =>
      n <- gets (fun w => installed conn_eqb conn (connHandlers w)) ;;
      times n (on_conn_open conn)
  | ConnData conn data now =>
      n <- gets (fun w => installed conn_eqb conn (connHandlers w)) ;;
      times n (on_conn_data conn data now)
  | ConnClosed conn =>
      n <- gets (fun w => installed conn_eqb conn (connHandlers w)) ;;
      times n (on_conn_close conn)
  end.

Inductive Command : Type :=
| CreateRoom (uuid : string) (media : MediaOutcome) (peerUuid : string)
    (outcome : PeerOutcome)
| JoinRoom (code : string) (media : MediaOutcome) (peerUuid : string)
    (outcome : PeerOutcome)
| ConnectToPeer (peerId : PeerId)
| SendMessage (message : string) (now : Time)
| StopMedia
| LeaveRoom.

Inductive Input : Type :=
| Cmd (c : Command)
| Ev (e : TransportEvent).

Definition perform (c : Command) : M unit :=
  match c with
  | CreateRoom uuid media peerUuid outcome =>
      createRoom uuid media peerUuid outcome ;; ret tt
  | JoinRoom code media peerUuid outcome =>
      joinRoom code media peerUuid outcome
  | ConnectToPeer peerId => connectToPeer peerId
  | SendMessage message now => sendMessage message now
  | StopMedia => stopMedia
  | LeaveRoom => leaveRoom
  end.

(** The world after one input, however the input completes. *)
Definition step (w : World) (i : Input) : World :=
  match i with
  | Cmd c => exec (perform c) w
  | Ev e => exec (deliver e) w
  end.

Definition run (w : World) (h : list Input) : World := fold_left step h w.

Definition events_only (h : list TransportEvent) : list Input := map Ev h.

(** One [connectToPeer] per peer id, as the loop of [connectToRoom] makes. *)
Definition connect_all (ps : list PeerId) : list Input :=
  map (fun q => Cmd (ConnectToPeer q)) ps.

(** *** Reading a trace *)

(** The [events.emit] calls of a trace. *)
Definition emitted (t : list Action) : list (string * EventData) :=
  flat_map (fun a => match a with Emit e d => [(e, d)] | _ => [] end) t.

(** The [conn.send] calls of a trace. *)
Definition sent (t : list Action) : list (DataConnection * JSVal) :=
  flat_map (fun a => match a with ConnSend c d => [(c, d)] | _ => [] end) t.

(** The peers for which a media call was initiated. *)
Definition called (t : list Action) : list PeerId :=
  flat_map (fun a => match a with PeerCall _ p _ _ => [p] | _ => [] end) t.

(** The peers for which a data connection was initiated. *)
Definition dialled (t : list Action) : list PeerId :=
  flat_map (fun a => match a with PeerConnect _ p _ => [p] | _ => [] end) t.

(** *** The channel states of the specification

    The coordinator keeps no state per channel; the specification's
    [dataState] and [mediaState] of a channel are read off the events the
    transport has delivered for it. *)

Inductive ChannelState : Type :=
| NoChannel
| Negotiating
| Established
| Closed.

(** [dataState]: [Negotiating] is the specification's [Opening],
    [Established] its [Open]. *)
Definition data_step (c : DataConnection) (st : ChannelState)
    (e : TransportEvent) : ChannelState :=
  match e with
  | IncomingConnection _ c' =>
      if conn_eqb c' c then
        match st with NoChannel => Negotiating | _ => st end
      else st
  | ConnOpen c' => if conn_eqb c' c then Established else st
  | ConnClosed c' => if conn_eqb c' c then Closed else st
  | _ => st
  end.

Definition dataState (h : list TransportEvent) (c : DataConnection)
  : ChannelState := fold_left (data_step c) h NoChannel.

(** [mediaState]: [Established] is the specification's [Streaming]. *)
Definition media_step (c : MediaConnection) (st : ChannelState)
    (e : TransportEvent) : ChannelState :=
  match e with
  | IncomingCall _ c' =>
      if call_eqb c' c then
        match st with NoChannel => Negotiating | _ => st end
      else st
  | CallStream c' _ => if call_eqb c' c then Established else st
  | CallClosed c' => if call_eqb c' c then Closed else st
  | _ => st
  end.

Definition mediaState (h : list TransportEvent) (c : MediaConnection)
  : ChannelState := fold_left (media_step c) h NoChannel.

Definition terminal (st : ChannelState) : bool :=
  match st with
  | NoChannel | Closed => true
  | _ => false
  end.

(** The data connections a history mentions. *)
Definition data_conns (h : list TransportEvent) : list DataConnection :=
  flat_map (fun e =>
    match e with
    | IncomingConnection _ c | ConnOpen c | ConnData c _ _ | ConnClosed c => [c]
    | _ => []
    end) h.

(** Every peer has one data connection in the history. *)
Definition one_channel_per_peer (h : list TransportEvent) : bool :=
  forallb (fun c1 =>
    forallb (fun c2 =>
      implb (String.eqb (conn_peer c1) (conn_peer c2)) (conn_eqb c1 c2))
      (data_conns h)) (data_conns h).

(** The transport reports ['open'] and ['close'] only for connections on
    which the coordinator has installed its callbacks. *)
Fixpoint attached (w : World) (h : list TransportEvent) : bool :=
  match h with
  | [] => true
  | e :: h' =>
      match e with
      | ConnOpen c | ConnClosed c =>
          negb (installed conn_eqb c (connHandlers w) =? 0)
      | _ => true
      end && attached (exec (deliver e) w) h'
  end.

(** The session is idle: nothing of a room is left. *)
Definition idle (w : World) : Prop :=
  localStream w = None /\ peers w = [] /\ connections w = [] /\
  peer w = None /\ roomCode w = None.

(** A record of the registry: a key of either map. *)
Definition has_record (w : World) (p : PeerId) : bool :=
  match JSMap.get (peers w) p, JSMap.get (connections w) p with
  | None, None => false
  | _, _ => true
  end.

(** [w'] differs from [w] at most by the trace, the handle counter, the
    media side and more installed callbacks. *)
Definition frame (w w' : World) : Prop :=
  user w' = user w /\ connections w' = connections w /\
  exists l, connHandlers w' = (connHandlers w ++ l)%list.

(** What holds of the data-connections map after the inputs [h], for the
    signed-in user [u]: keys are not repeated, and an entry is filed under
    the [peer] of its connection, which has reported ['open'] and carries
    the coordinator's callbacks. *)
Definition opened_inv (u : option User) (h : list Input) (w : World) : Prop :=
  user w = u /\ NoDup (JSMap.keys (connections w)) /\
  forall p c,
    JSMap.get (connections w) p = Some c ->
    conn_peer c = p /\ In (Ev (ConnOpen c)) h /\
    installed conn_eqb c (connHandlers w) <> 0.

(** The data-connections map against the channel states [st] of the
    specification, for connections among [known]: the entries are the
    connections whose state is [Established]. *)
Definition open_inv (known : list DataConnection)
    (st : DataConnection -> ChannelState) (w : World) : Prop :=
  NoDup (JSMap.keys (connections w)) /\
  (forall p c,
     JSMap.get (connections w) p = Some c ->
     conn_peer c = p /\ st c = Established) /\
  (forall c,
     st c = Established ->
     In c known /\ JSMap.get (connections w) (conn_peer c) = Some c).

End StudyRoom.

(** ** Concrete inputs used by the examples below *)

Module Examples.
Import StudyRoom.

Definition uuid1 : string := "3f2a9c1e-7b4d-4e8a-9c3f-1a2b3c4d5e6f".
Definition uuid2 : string := "0a1b2c3d-4e5f-4a6b-8c7d-9e0f1a2b3c4d".

Definition camera : MediaStream :=
  {| stream_handle := 100; stream_tracks := [1; 2] |}.


Definition me : Peer := {| peer_id := uuid2 |}.

(** The world after a successful [createRoom], nobody signed in. *)
Definition active : World :=
  exec (createRoom uuid1 (MediaGranted camera) uuid2 PeerOpened)
    (initial None false).

Definition alice_conn : DataConnection :=
  {| conn_handle := 11; conn_peer := "alice" |}.
Definition bob_conn : DataConnection :=
  {| conn_handle := 12; conn_peer := "bob" |}.
Definition carol_conn : DataConnection :=
  {| conn_handle := 13; conn_peer := "carol" |}.
Definition bob_call : MediaConnection :=
  {| call_handle := 21; call_peer := "bob" |}.

(** The data connection that the first [connectToPeer "bob"] of [active]
    obtains from the transport. *)
Definition bob_dialled : DataConnection :=
  {| conn_handle := 1; conn_peer := "bob" |}.

(** Bob has been dialled and his data channel has opened. *)
Definition bob_connected : World :=
  run active [Cmd (ConnectToPeer "bob"); Ev (ConnOpen bob_dialled)].

(** Three peers connect and open their data channels, then carol's closes. *)
Definition two_open_one_closed : list TransportEvent :=
  [IncomingConnection me alice_conn; IncomingConnection me bob_conn;
   IncomingConnection me carol_conn; ConnOpen alice_conn; ConnOpen carol_conn;
   ConnOpen bob_conn; ConnClosed carol_conn].

(** Bob calls in, without a data connection, and the call closes. *)
Definition call_then_close : list TransportEvent :=
  [IncomingCall me bob_call; CallClosed bob_call].

Definition counter : EventBus.Callback unit nat :=
  EventBus.Build_Callback 1 (fun _ w => EventBus.Returned (S w)).

End Examples.

(** ** Further readers of the study room *)

Module RoomView.
Import StudyRoom.

(** The [call.close()] calls of a trace. *)
Definition closed_calls (t : list Action) : list MediaConnection :=
  flat_map (fun a => match a with CallClose c => [c] | _ => [] end) t.

(** The [track.stop()] calls of a trace. *)
Definition stopped_tracks (t : list Action) : list nat :=
  flat_map (fun a => match a with TrackStop k => [k] | _ => [] end) t.

(** The [call.answer(stream)] calls of a trace. *)
Definition answered (t : list Action)
  : list (MediaConnection * option MediaStream) :=
  flat_map (fun a => match a with CallAnswer c s => [(c, s)] | _ => [] end) t.

(** What [handleCall] keeps of the media-peers map. *)
Definition peers_ok (w : World) : Prop :=
  NoDup (JSMap.keys (peers w)) /\
  forall p c, JSMap.get (peers w) p = Some c -> call_peer c = p.

(** Both maps of the registry are keyed by the [peer] of what they hold,
    and no key is repeated. *)
Definition filed_by_peer (w : World) : Prop :=
  NoDup (JSMap.keys (peers w)) /\
  NoDup (JSMap.keys (connections w)) /\
  (forall p c, JSMap.get (peers w) p = Some c -> call_peer c = p) /\
  (forall p c, JSMap.get (connections w) p = Some c -> conn_peer c = p).

(** The test [message.sender === (AppState.user?.name || 'You')] by which
    [UI.addChatMessage] (line 1678) marks a message as the user's own. *)
Definition is_own_message (u : option User) (sender : JSVal) : bool :=
  strict_eq_str sender
    match u with
    | Some u' => if String.eqb (name u') "" then "You" else name u'
    | None => "You"
    end.

End RoomView.

(** ** Further concrete inputs *)

Module Scenarios.
Import StudyRoom.

(** A second data connection of bob, as when both sides dial. *)
Definition bob_conn2 : DataConnection :=
  {| conn_handle := 14; conn_peer := "bob" |}.

(** Both connections of bob have been handled, neither has opened. *)
Definition bob_twice : World :=
  run Examples.active
    [Ev (IncomingConnection Examples.me Examples.bob_conn);
     Ev (IncomingConnection Examples.me bob_conn2)].

(** Bob's call has been answered and handled. *)
Definition bob_called : World :=
  run Examples.active [Ev (IncomingCall Examples.me Examples.bob_call)].

Definition bob_stream : MediaStream :=
  {| stream_handle := 200; stream_tracks := [5; 6] |}.

Definition ann : User :=
  {| name := "Ann"; email := "ann@example.org"; imageUrl := "" |}.

End Scenarios.

(** ** Sequences of registrations on the bus *)

Module BusOps.
Section Ops.
Variables Data W : Type.

(** A call of [events.on] or [events.off]. *)
Inductive BusOp : Type :=
| On (event : string) (cb : EventBus.Callback Data W)
| Off (event : string) (cb : EventBus.Callback Data W).

Definition apply_op (ls : EventBus.Listeners Data W) (op : BusOp)
  : EventBus.Listeners Data W :=
  match op with
  | On event cb => EventBus.on ls event cb
  | Off event cb => EventBus.off ls event cb
  end.

Definition apply_ops (ls : EventBus.Listeners Data W) (ops : list BusOp)
  : EventBus.Listeners Data W := fold_left apply_op ops ls.
End Ops.
Arguments On {Data W} event cb.
Arguments Off {Data W} event cb.
Arguments apply_op {Data W} ls op.
Arguments apply_ops {Data W} ls ops.
End BusOps.

(** ** Sanitizing ([security.sanitizeInput], lines 292-300) *)

Module Security.

(** [s.replace(/c/g, rep)] for a one-character pattern and a replacement
    without [$]. *)
Fixpoint replace_all (c : ascii) (rep s : string) : string :=
  match s with
  | EmptyString => EmptyString
  | String c' s' =>
      if Ascii.eqb c' c then String.append rep (replace_all c rep s')
      else String c' (replace_all c rep s')
  end.

Definition amp : ascii := "&"%char.
Definition lt : ascii := "<"%char.
Definition gt : ascii := ">"%char.
Definition quot : ascii := "034"%char.
Definition apos : ascii := "'"%char.

(** The five replacements of [sanitizeInput], in the order of the source. *)
Definition sanitize_string (input : string) : string :=
  replace_all apos "&#039;"
    (replace_all quot "&quot;"
       (replace_all gt "&gt;"
          (replace_all lt "&lt;"
             (replace_all amp "&amp;" input)))).

(** [sanitizeInput]: a value that is not a string is returned as it is. *)
Definition sanitizeInput (input : JSVal) : JSVal :=
  match input with
  | JStr s => JStr (sanitize_string s)
  | _ => input
  end.

(** The characters with which markup starts or an attribute ends. *)
Definition is_markup (c : ascii) : bool :=
  Ascii.eqb c lt || Ascii.eqb c gt || Ascii.eqb c quot || Ascii.eqb c apos.

(** The characters [sanitizeInput] replaces. *)
Definition is_special (c : ascii) : bool := Ascii.eqb c amp || is_markup c.

(** The entity of one character. *)
Definition escape_char (c : ascii) : string :=
  if Ascii.eqb c amp then "&amp;"
  else if Ascii.eqb c lt then "&lt;"
  else if Ascii.eqb c gt then "&gt;"
  else if Ascii.eqb c quot then "&quot;"
  else if Ascii.eqb c apos then "&#039;"
  else String c EmptyString.

(** Replacing every character by its entity in one pass. *)
Fixpoint escape (s : string) : string :=
  match s with
  | EmptyString => EmptyString
  | String c s' => String.append (escape_char c) (escape s')
  end.

(** Reading the five entities back; [skip] characters are passed over
    first. *)
Fixpoint unescape_from (skip : nat) (s : string) : string :=
  match s with
  | EmptyString => EmptyString
  | String c rest =>
      match skip with
      | S k => unescape_from k rest
      | O =>
          if Ascii.eqb c amp then
            if String.prefix "amp;" rest
            then String amp (unescape_from 4 rest)
            else if String.prefix "lt;" rest
            then String lt (unescape_from 3 rest)
            else if String.prefix "gt;" rest
            then String gt (unescape_from 3 rest)
            else if String.prefix "quot;" rest
            then String quot (unescape_from 5 rest)
            else if String.prefix "#039;" rest
            then String apos (unescape_from 5 rest)
            else String c (unescape_from 0 rest)
          else String c (unescape_from 0 rest)
      end
  end.

Definition unescape (s : string) : string := unescape_from 0 s.

End Security.

(** ** The keyword analyses ([AIService], lines 2090-2165) *)

Module AIService.

Definition lower_char (c : ascii) : ascii :=
  if is_upper c then ascii_of_nat (nat_of_ascii c + 32) else c.

(** [s.toLowerCase()] on an ASCII string. *)
Fixpoint toLowerCase (s : string) : string :=
  match s with
  | EmptyString => EmptyString
  | String c s' => String (lower_char c) (toLowerCase s')
  end.

(** [s.includes(k)]. *)
Fixpoint includes (s k : string) : bool :=
  String.prefix k s ||
  match s with
  | EmptyString => false
  | String _ s' => includes s' k
  end.

(** [list.includes(word)] for a list of strings. *)
Definition list_includes (l : list string) (word : string) : bool :=
  existsb (String.eqb word) l.

(** The ASCII characters of the class [\s]. *)
Definition is_space (c : ascii) : bool :=
  ((9 <=? nat_of_ascii c) && (nat_of_ascii c <=? 13))
  || (nat_of_ascii c =? 32).

(** [s.split(/\s+/)]: [cur] is the piece being read, [in_ws] tells that the
    last character was white space. *)
Fixpoint split_from (s cur : string) (in_ws : bool) : list string :=
  match s with
  | EmptyString => [cur]
  | String c s' =>
      if is_space c then
        if in_ws then split_from s' EmptyString true
        else cur :: split_from s' EmptyString true
      else split_from s' (String.append cur (String c EmptyString)) false
  end.

Definition split_ws (s : string) : list string :=
  split_from s EmptyString false.

(** [words.join(' ')]. *)
Fixpoint join_space (ws : list string) : string :=
  match ws with
  | [] => EmptyString
  | [w] => w
  | w :: ws' => String.append w (String " "%char (join_space ws'))
  end.

Definition positiveWords : list string :=
  ["good"; "great"; "excellent"; "amazing"; "successful"].
Definition negativeWords : list string :=
  ["bad"; "poor"; "issue"; "problem"; "fail"].

(** The body of the [forEach] of [_analyzeSentiment]. *)
Definition sentiment_step (score : Z) (word : string) : Z :=
  let score1 :=
    if list_includes positiveWords word then (score + 1)%Z else score in
  if list_includes negativeWords word then (score1 - 1)%Z else score1.

Definition sentiment_score (text : string) : Z :=
  fold_left sentiment_step (split_ws (toLowerCase text)) 0%Z.

(** [_analyzeSentiment] (lines 2151-2164). *)
Definition _analyzeSentiment (text : string) : string :=
  if (0 <? sentiment_score text)%Z then "positive"
  else if (sentiment_score text <? 0)%Z then "negative"
  else "neutral".

Definition topicKeywords : list string :=
  ["project"; "meeting"; "idea"; "plan"; "research"].
Definition actionKeywords : list string :=
  ["todo"; "need to"; "should"; "must"; "implement"].

(** [topics.add(word)] on a [Set] in insertion order. *)
Definition set_add (topics : list string) (word : string) : list string :=
  if list_includes topics word then topics else (topics ++ [word])%list.

(** The [forEach] of [analyzeNote] over the words from position [index] on:
    [rest] is [words.slice(index)], so [firstn 5 rest] is
    [words.slice(index, index + 5)]. *)
Fixpoint scan_words (rest : list string) (topics actions : list string)
  : list string * list string :=
  match rest with
  | [] => (topics, actions)
  | word :: rest' =>
      let topics' :=
        if list_includes topicKeywords word then set_add topics word
        else topics in
      let actions' :=
        if existsb (includes word) actionKeywords
        then (actions ++ [join_space (firstn 5 rest)])%list
        else actions in
      scan_words rest' topics' actions'
  end.

Record NoteAnalysis : Type := {
  summary : string;
  topics : list string;
  suggestedTasks : list string;
  sentiment : string
}.

(** [analyzeNote] (lines 2091-2117) on a string. *)
Definition analyzeNote (noteText : string) : NoteAnalysis :=
  let words := split_ws (toLowerCase noteText) in
  let (ts, actions) := scan_words words [] [] in
  {| summary :=
       if 100 <? String.length noteText
       then String.append (slice0 100 noteText) "..."
       else noteText;
     topics := ts;
     suggestedTasks := actions;
     sentiment := _analyzeSentiment noteText |}.

(** What [task.dueDate] is: falsy, a value [Date] cannot read, or an
    instant in milliseconds. *)
Inductive DueDate : Type :=
| NoDue
| InvalidDue
| DueAt (ms : Z).

(** The fields of a task that [prioritizeTasks] reads; [None] is a field
    that is missing. *)
Record Task : Type := {
  title : option string;
  description : option string;
  dueDate : DueDate
}.

Definition urgentKeywords : list string :=
  ["urgent"; "asap"; "important"; "critical"].

(** [urgentKeywords.some(keyword => title.includes(keyword) ||
    description.includes(keyword))]: the description is read only when the
    title does not have the keyword. *)
Fixpoint urgent_some (keywords : list string) (task : Task)
  : JSError + bool :=
  match keywords with
  | [] => inr false
  | keyword :: keywords' =>
      match title task with
      | None =>
          inl (TypeError "Cannot read properties of undefined (toLowerCase)")
      | Some t =>
          if includes (toLowerCase t) keyword then inr true
          else
            match description task with
            | None =>
                inl (TypeError
                       "Cannot read properties of undefined (toLowerCase)")
            | Some d =>
                if includes (toLowerCase d) keyword then inr true
                else urgent_some keywords' task
            end
      end
  end.

Definition msPerDay : Z := (1000 * 60 * 60 * 24)%Z.

(** [Math.ceil(x / msPerDay)] for an integer number of milliseconds [x].
    The source divides in floating point; the three comparisons that follow
    come out the same, since a multiple of [msPerDay] divides exactly and
    rounding keeps the order. *)
Definition ceil_days (x : Z) : Z := (- ((- x) / msPerDay))%Z.

(** The points for the due date; [now] is [new Date()]. *)
Definition due_points (due : DueDate) (now : Z) : nat :=
  match due with
  | NoDue | InvalidDue => 0
  | DueAt ms =>
      let daysUntilDue := ceil_days (ms - now) in
      if (daysUntilDue <=? 1)%Z then 3
      else if (daysUntilDue <=? 3)%Z then 2
      else if (daysUntilDue <=? 7)%Z then 1
      else 0
  end.

Record Prioritized : Type := {
  task_of : Task;
  priorityScore : nat;
  suggestedPriority : string
}.

Definition priority_of (priorityScore : nat) : string :=
  if 3 <=? priorityScore then "High"
  else if 1 <=? priorityScore then "Medium"
  else "Low".

(** The function mapped over the tasks by [prioritizeTasks]. *)
Definition prioritize (now : Z) (task : Task) : JSError + Prioritized :=
  match urgent_some urgentKeywords task with
  | inl e => inl e
  | inr urgent =>
      let priorityScore :=
        (if urgent then 2 else 0) + due_points (dueDate task) now in
      inr {| task_of := task; priorityScore := priorityScore;
             suggestedPriority := priority_of priorityScore |}
  end.

(** [prioritizeTasks] (lines 2119-2149); [clock i] is what [new Date()]
    reads while the task at index [i] is scored.  The first task that
    throws ends the [map]. *)
Fixpoint prioritize_from (index : nat) (clock : nat -> Z) (tasks : list Task)
  : JSError + list Prioritized :=
  match tasks with
  | [] => inr []
  | task :: tasks' =>
      match prioritize (clock index) task with
      | inl e => inl e
      | inr p =>
          match prioritize_from (S index) clock tasks' with
          | inl e => inl e
          | inr ps => inr (p :: ps)
          end
      end
  end.

Definition prioritizeTasks (clock : nat -> Z) (tasks : list Task)
  : JSError + list Prioritized := prioritize_from 0 clock tasks.

(** The task is due within [n] days of [now]. *)
Definition due_within (n : Z) (now : Z) (task : Task) : Prop :=
  match dueDate task with
  | DueAt ms => (ms - now <= n * msPerDay)%Z
  | _ => False
  end.

End AIService.

(** ** Inputs for the analyses *)

Module Tasks.
Import AIService.

Definition report_task : Task :=
  {| title := Some "Write the report ASAP"; description := Some "for Monday";
     dueDate := NoDue |}.

Definition untitled_asap : Task :=
  {| title := Some "do it asap"; description := None; dueDate := NoDue |}.

Definition urgent_bare : Task :=
  {| title := Some "URGENT call"; description := None;
     dueDate := DueAt 90000000 |}.

Definition note : string := "Project plan:  we MUST fix the bad build".

End Tasks.

(** ** One slot per peer id *)

Module PeerSlots.
Import StudyRoom.

(** What the events delivered so far leave for the peer id [p]: the
    connection of [p] that reported ['open'] last, unless a connection of
    [p], that one or another, has reported ['close'] since. *)
Definition slot_step (p : PeerId) (slot : option DataConnection)
    (e : TransportEvent) : option DataConnection :=
  match e with
  | ConnOpen c => if String.eqb (conn_peer c) p then Some c else slot
  | ConnClosed c => if String.eqb (conn_peer c) p then None else slot
  | _ => slot
  end.

Definition slot (h : list TransportEvent) (p : PeerId)
  : option DataConnection := fold_left (slot_step p) h None.

(** The data-connections map against the slots [sl] and the channel states
    [st]: the map is the slots, and a connection in a slot is filed under
    its peer and is open. *)
Definition slot_inv (sl : PeerId -> option DataConnection)
    (st : DataConnection -> ChannelState) (w : World) : Prop :=
  NoDup (JSMap.keys (connections w)) /\
  (forall p, JSMap.get (connections w) p = sl p) /\
  (forall p c, sl p = Some c -> conn_peer c = p /\ st c = Established).

(** Bob connects, his channel opens, he connects again and the new channel
    opens; then the first channel reports ['close']. *)
Definition reconnect_late_close : list TransportEvent :=
  [IncomingConnection Examples.me Scenarios.bob_conn2;
   ConnOpen Scenarios.bob_conn2;
   IncomingConnection Examples.me Examples.bob_conn;
   ConnOpen Examples.bob_conn;
   ConnClosed Scenarios.bob_conn2].

End PeerSlots.

(** All characters of the string are ASCII (below 128). *)
Definition is_ascii_string (s : string) : bool :=
  string_forallb (fun c => nat_of_ascii c <? 128) s.

(** * Properties *)

Import StudyRoom.
Local Open Scope list_scope.

(** ** Association lists as maps *)

Section JSMapFacts.
Context {V : Type}.
Implicit Types (m : JSMap.t V) (k : string) (v : V).

Lemma get_set_same m k v : JSMap.get (JSMap.set m k v) k = Some v.
Proof.
  induction m as [|[k' v'] m IH]; simpl.
  - now rewrite String.eqb_refl.
  - destruct (String.eqb k' k) eqn:E; simpl; rewrite E; auto.
Qed.

Lemma get_set_other m k k' v :
  k <> k' -> JSMap.get (JSMap.set m k v) k' = JSMap.get m k'.
Proof.
  intros Hne. induction m as [|[k0 v0] m IH]; simpl.
  - destruct (String.eqb k k') eqn:E; auto.
    apply String.eqb_eq in E. contradiction.
  - destruct (String.eqb k0 k) eqn:E; simpl.
    + apply String.eqb_eq in E. subst k0.
      destruct (String.eqb k k') eqn:E'; auto.
      apply String.eqb_eq in E'. contradiction.
    + destruct (String.eqb k0 k'); auto.
Qed.

Lemma keys_set m k v :
  JSMap.keys (JSMap.set m k v) =
  if existsb (String.eqb k) (JSMap.keys m) then JSMap.keys m
  else JSMap.keys m ++ [k].
Proof.
  induction m as [|[k' v'] m IH]; simpl; auto.
  rewrite (String.eqb_sym k k').
  destruct (String.eqb k' k) eqn:E; simpl; auto.
  unfold JSMap.keys in *. rewrite IH.
  destruct (existsb (String.eqb k) (map fst m)); auto.
Qed.

Lemma NoDup_keys_set m k v :
  NoDup (JSMap.keys m) -> NoDup (JSMap.keys (JSMap.set m k v)).
Proof.
  intros H. rewrite keys_set.
  destruct (existsb (String.eqb k) (JSMap.keys m)) eqn:E; auto.
  apply NoDup_app; auto.
  - constructor; [intros []|constructor].
  - intros x Hx [Heq|[]].
    assert (existsb (String.eqb k) (JSMap.keys m) = true); [|congruence].
    apply existsb_exists. exists x. split; auto.
    rewrite Heq. apply String.eqb_refl.
Qed.

Lemma keys_delete_incl m k x :
  In x (JSMap.keys (JSMap.delete m k)) -> In x (JSMap.keys m).
Proof.
  induction m as [|[k' v'] m IH]; simpl; auto.
  destruct (String.eqb k' k); simpl; intuition.
Qed.

Lemma NoDup_keys_delete m k :
  NoDup (JSMap.keys m) -> NoDup (JSMap.keys (JSMap.delete m k)).
Proof.
  induction m as [|[k' v'] m IH]; simpl; auto.
  intros H. inversion H; subst.
  destruct (String.eqb k' k); simpl; auto.
  constructor; auto. intros Hin. apply keys_delete_incl in Hin. auto.
Qed.

Lemma get_None_keys m k : JSMap.get m k = None <-> ~ In k (JSMap.keys m).
Proof.
  induction m as [|[k' v'] m IH]; simpl.
  - intuition.
  - destruct (String.eqb k' k) eqn:E.
    + apply String.eqb_eq in E. subst. split; [discriminate|intuition].
    + apply String.eqb_neq in E. unfold JSMap.get in IH. rewrite IH.
      intuition.
Qed.

Lemma get_delete_same m k :
  NoDup (JSMap.keys m) -> JSMap.get (JSMap.delete m k) k = None.
Proof.
  induction m as [|[k' v'] m IH]; simpl; auto.
  intros H. inversion H; subst.
  destruct (String.eqb k' k) eqn:E; simpl.
  - apply String.eqb_eq in E. subst. now apply get_None_keys.
  - rewrite E. auto.
Qed.

Lemma get_delete_other m k k' :
  k <> k' -> JSMap.get (JSMap.delete m k) k' = JSMap.get m k'.
Proof.
  intros Hne. induction m as [|[k0 v0] m IH]; simpl; auto.
  destruct (String.eqb k0 k) eqn:E; simpl.
  - apply String.eqb_eq in E. subst k0.
    destruct (String.eqb k k') eqn:E'; auto.
    apply String.eqb_eq in E'. contradiction.
  - destruct (String.eqb k0 k'); auto.
Qed.

Lemma get_Some_In m k v : JSMap.get m k = Some v -> In (k, v) m.
Proof.
  induction m as [|[k' v'] m IH]; simpl; [discriminate|].
  destruct (String.eqb k' k) eqn:E.
  - apply String.eqb_eq in E. intros [= ->]. subst. auto.
  - auto.
Qed.

Lemma In_get_Some m k v :
  NoDup (JSMap.keys m) -> In (k, v) m -> JSMap.get m k = Some v.
Proof.
  induction m as [|[k' v'] m IH]; simpl; [tauto|].
  intros H [Heq|Hin]; inversion H; subst.
  - injection Heq as -> ->. now rewrite String.eqb_refl.
  - destruct (String.eqb k' k) eqn:E; auto.
    apply String.eqb_eq in E. subst.
    exfalso. apply H2. change k with (fst (k, v)). now apply in_map.
Qed.
End JSMapFacts.

(** ** The event bus *)

Section EventBusFacts.
Context {Data W : Type}.
Implicit Types (cbs : list (EventBus.Callback Data W)) (data : Data) (w : W).

Lemma forEach_invokes_prefix cbs data w :
  exists k,
    snd (EventBus.forEach cbs data w) = map EventBus.cb_id (firstn k cbs).
Proof.
  revert w. induction cbs as [|cb rest IH]; intros w; simpl.
  - now exists 0.
  - destruct (EventBus.cb_run cb data w) as [w'|e w'].
    + destruct (IH w') as [k Hk].
      destruct (EventBus.forEach rest data w') as [o invoked]; simpl in *.
      exists (S k). simpl. now rewrite Hk.
    + now exists 1.
Qed.

Lemma forEach_returned cbs data w w' :
  fst (EventBus.forEach cbs data w) = EventBus.Returned w' ->
  snd (EventBus.forEach cbs data w) = map EventBus.cb_id cbs.
Proof.
  revert w. induction cbs as [|cb rest IH]; intros w; simpl; auto.
  destruct (EventBus.cb_run cb data w) as [w1|e w1]; [|discriminate].
  specialize (IH w1).
  destruct (EventBus.forEach rest data w1) as [o invoked]; simpl in *.
  intros H. now rewrite IH.
Qed.

End EventBusFacts.




(** ** The monad *)

Lemma with_trace_same w : with_trace (trace w) w = w.
Proof. now destruct w. Qed.

Lemma forEach_act {A : Type} (f : A -> Action) (xs : list A) w :
  forEach xs (fun x => act (f x)) w =
  (Normal tt, with_trace (trace w ++ map f xs) w).
Proof.
  revert w. induction xs as [|x xs IH]; intros w; simpl.
  - unfold ret. now rewrite app_nil_r, with_trace_same.
  - unfold bind, act, modify at 1. rewrite IH. simpl.
    now rewrite <- app_assoc.
Qed.

(** [times] keeps whatever every run of the callback keeps. *)
Lemma times_preserves (P : World -> Prop) (m : M unit) n w :
  (forall w0, P w0 -> P (exec m w0)) -> P w -> P (exec (times n m) w).
Proof.
  intros Hm. revert w. unfold exec.
  induction n as [|n IH]; intros w Hw; simpl; auto.
  unfold bind. specialize (Hm w Hw). unfold exec in Hm.
  destruct (m w) as [[[]|e|] w']; simpl in *; auto.
Qed.

(** ** Teardown *)

Lemma stopMedia_result w :
  stopMedia w =
  (Normal tt,
   with_trace
     (trace w
      ++ match localStream w with
         | Some s => map TrackStop (stream_tracks s)
         | None => []
         end
      ++ map CallClose (JSMap.values (peers w))
      ++ match peer w with
         | Some p => [PeerDestroy p]
         | None => []
         end)
     (with_peer None
        (with_connections JSMap.empty
           (with_peers JSMap.empty (with_localStream None w))))).
Proof.
  unfold stopMedia. cbv beta iota delta [bind gets].
  destruct (localStream w) as [s|] eqn:Hs.
  - cbv beta iota delta [bind]. rewrite forEach_act.
    cbv beta iota delta [modify]. rewrite forEach_act.
    destruct w as [ps ls rc p cs u host nh ph ch cnh tr]; simpl in *.
    destruct p; simpl; unfold act, bind, modify, with_trace; simpl;
      now rewrite <- ?app_assoc, ?app_nil_r.
  - cbv beta iota delta [ret]. rewrite forEach_act.
    destruct w as [ps ls rc p cs u host nh ph ch cnh tr]; simpl in *.
    destruct p; simpl; unfold act, bind, modify, with_trace; simpl;
      subst; now rewrite <- ?app_assoc, ?app_nil_r.
Qed.

(** C6: whatever the state before (any peers, any connections, a local
    stream or none), [stopMedia] completes and leaves both maps of the
    registry empty and [localStream] null; so does the leave-room handler,
    which also clears the room code. *)
Theorem stopMedia_empties_registry (w : World) :
  (completion stopMedia w = Normal tt /\
   peers (exec stopMedia w) = JSMap.empty /\
   connections (exec stopMedia w) = JSMap.empty /\
   localStream (exec stopMedia w) = None /\
   peer (exec stopMedia w) = None) /\
  (completion leaveRoom w = Normal tt /\
   peers (exec leaveRoom w) = JSMap.empty /\
   connections (exec leaveRoom w) = JSMap.empty /\
   localStream (exec leaveRoom w) = None /\
   roomCode (exec leaveRoom w) = None).
Proof.
  unfold completion, exec, leaveRoom, bind. rewrite stopMedia_result.
  simpl. repeat split.
Qed.

Lemma stopMedia_idle w : idle w -> stopMedia w = (Normal tt, w).
Proof.
  intros (Hs & Hp & Hc & Hi & Hr).
  rewrite stopMedia_result. f_equal.
  destruct w as [ps ls rc p cs u host nh ph ch cnh tr]; simpl in *.
  subst. unfold with_trace; simpl. now rewrite app_nil_r.
Qed.

Lemma leaveRoom_idle w : idle w -> leaveRoom w = (Normal tt, w).
Proof.
  intros H. unfold leaveRoom, bind. rewrite (stopMedia_idle w H).
  destruct H as (Hs & Hp & Hc & Hi & Hr).
  unfold modify. f_equal. destruct w; simpl in *. now subst.
Qed.

Lemma leaveRoom_makes_idle w : idle (exec leaveRoom w).
Proof.
  unfold exec, leaveRoom, bind. rewrite stopMedia_result. repeat split.
Qed.

(** Leaving twice is leaving once. *)
Corollary leaveRoom_twice w :
  leaveRoom (exec leaveRoom w) = (Normal tt, exec leaveRoom w).
Proof. apply leaveRoom_idle, leaveRoom_makes_idle. Qed.

(** C7: in an idle session (no local stream, no peers, no connections, no
    transport identity, no room code) [stopMedia] and the leave-room handler
    complete normally and change nothing: the world, trace included, is the
    one before, so no event is published and no transport call is made. *)
Theorem leaveRoom_idle_noop (w : World) :
  idle w ->
  stopMedia w = (Normal tt, w) /\ leaveRoom w = (Normal tt, w).
Proof.
  intros H. split; [now apply stopMedia_idle|now apply leaveRoom_idle].
Qed.

Lemma leaveRoom_idle_noop_witness :
  idle (initial None false) /\
  leaveRoom (initial None false) = (Normal tt, initial None false).
Proof.
  assert (H : idle (initial None false)) by (repeat split).
  split; [exact H|].
  apply (leaveRoom_idle_noop (initial None false) H).
Defined.

(** ** Inbound dispatch *)

Lemma strict_eq_str_spec v s : strict_eq_str v s = true <-> v = JStr s.
Proof.
  destruct v; simpl; try (split; discriminate).
  rewrite String.eqb_eq. split; [now intros ->|now intros [= ->]].
Qed.

(** C8: a message whose [type] can be read is classified by it.  When the
    type is not ['chat'] the message is ignored: the handler returns and the
    world, trace included, is unchanged.  When it is ['chat'], exactly one
    [chat:message] is published, with the [sender] and [content] of the
    payload and the receiver's [new Date()] as timestamp, whatever the
    payload carries. *)
Theorem handlePeerMessage_dispatch (peerId : PeerId) (message : JSVal)
    (now : Time) (w : World) (type : JSVal) :
  get_prop message "type" = inr type ->
  (type <> JStr "chat" ->
   handlePeerMessage peerId message now w = (Normal tt, w)) /\
  (type = JStr "chat" ->
   exists sender content,
     get_prop message "sender" = inr sender /\
     get_prop message "content" = inr content /\
     handlePeerMessage peerId message now w =
       (Normal tt,
        with_trace
          (trace w ++ [Emit "chat:message" (ChatMessage sender content now)])
          w)).
Proof.
  intros Htype. unfold handlePeerMessage. rewrite Htype. split.
  - intros Hne. destruct (strict_eq_str type "chat") eqn:E; auto.
    apply strict_eq_str_spec in E. contradiction.
  - intros ->. simpl.
    destruct message; simpl in *; try discriminate.
    destruct (assoc "sender" fields), (assoc "content" fields);
      eexists _, _; repeat split.
Qed.

(** A payload that is [null] or [undefined] has no [type] to read: the
    handler throws and nothing else happens. *)
Lemma handlePeerMessage_no_type peerId message now w :
  message = JNull \/ message = JUndefined ->
  exists e, handlePeerMessage peerId message now w = (Abrupt e, w).
Proof. intros [-> | ->]; eexists; reflexivity. Qed.

Lemma handlePeerMessage_dispatch_witness :
  get_prop (chat_payload "alice" "hi") "type" = inr (JStr "chat") /\
  exists sender content,
    get_prop (chat_payload "alice" "hi") "sender" = inr sender /\
    get_prop (chat_payload "alice" "hi") "content" = inr content /\
    handlePeerMessage "alice" (chat_payload "alice" "hi") 42%Z Examples.active =
      (Normal tt,
       with_trace
         (trace Examples.active
          ++ [Emit "chat:message" (ChatMessage sender content 42%Z)])
         Examples.active).
Proof.
  split; [reflexivity|].
  apply (handlePeerMessage_dispatch "alice" (chat_payload "alice" "hi") 42%Z
           Examples.active (JStr "chat")); reflexivity.
Defined.

(** ** Room codes *)

Lemma upper_hex_is_code_char c :
  is_hex_lower c = true ->
  is_upper (upper_char c) || is_digit (upper_char c) = true.
Proof.
  destruct c as [[] [] [] [] [] [] [] []]; vm_compute; intros H;
    (reflexivity || discriminate H).
Qed.

Lemma uuid_prefix_is_room_code uuid :
  uuid_format uuid = true ->
  matches_room_code (toUpperCase (slice0 6 uuid)) = true.
Proof.
  unfold uuid_format. intros H. apply andb_prop in H as [Hlen Hchars].
  destruct uuid as [|c0 [|c1 [|c2 [|c3 [|c4 [|c5 rest]]]]]];
    try discriminate Hlen.
  cbn [uuid_chars Nat.eqb orb] in Hchars.
  repeat (apply andb_prop in Hchars as [?H Hchars]).
  unfold matches_room_code. cbn [slice0 toUpperCase String.length Nat.eqb
    string_forallb andb].
  rewrite !upper_hex_is_code_char by assumption. reflexivity.
Qed.

Lemma upper_char_not_lower c : is_lower (upper_char c) = false.
Proof. destruct c as [[] [] [] [] [] [] [] []]; reflexivity. Qed.

Lemma toUpperCase_no_lower s :
  string_forallb (fun c => negb (is_lower c)) (toUpperCase s) = true.
Proof.
  induction s as [|c s IH]; simpl; auto.
  now rewrite upper_char_not_lower, IH.
Qed.

Lemma createRoom_sets_code uuid media peerUuid outcome w :
  roomCode (exec (createRoom uuid media peerUuid outcome) w) =
    Some (toUpperCase (slice0 6 uuid)) /\
  forall r,
    completion (createRoom uuid media peerUuid outcome) w = Normal r ->
    r = Some (toUpperCase (slice0 6 uuid)).
Proof.
  unfold createRoom.
  generalize (toUpperCase (slice0 6 uuid)) as code. intros code.
  destruct w as [ps ls rc p cs u host nh ph ch cnh tr].
  destruct media, outcome, host, p; cbv; split;
    try reflexivity; intros r [=]; congruence.
Qed.

Lemma joinRoom_sets_code code media peerUuid outcome w :
  roomCode (exec (joinRoom code media peerUuid outcome) w) =
    Some (toUpperCase code).
Proof.
  unfold joinRoom.
  generalize (toUpperCase code) as c. intros c.
  destruct w as [ps ls rc p cs u host nh ph ch cnh tr].
  destruct media, outcome, host, p; reflexivity.
Qed.

(** C9: when [crypto.randomUUID()] yields a UUID, the room code that
    [createRoom] stores, and returns when it completes, matches
    [^[A-Z0-9]{6}$]; [joinRoom] stores the upper-case form of its argument,
    which has no lower-case letter, as the room code, whatever the media and
    the transport do afterwards. *)
Theorem room_code_format (uuid code : string) (media : MediaOutcome)
    (peerUuid : string) (outcome : PeerOutcome) (w : World) :
  uuid_format uuid = true ->
  (exists rc,
     roomCode (exec (createRoom uuid media peerUuid outcome) w) = Some rc /\
     matches_room_code rc = true /\
     forall r,
       completion (createRoom uuid media peerUuid outcome) w = Normal r ->
       r = Some rc) /\
  roomCode (exec (joinRoom code media peerUuid outcome) w) =
    Some (toUpperCase code) /\
  string_forallb (fun c => negb (is_lower c)) (toUpperCase code) = true.
Proof.
  intros Hu.
  split; [|split; [apply joinRoom_sets_code|apply toUpperCase_no_lower]].
  exists (toUpperCase (slice0 6 uuid)).
  destruct (createRoom_sets_code uuid media peerUuid outcome w) as [H1 H2].
  auto using uuid_prefix_is_room_code.
Qed.

Lemma room_code_format_witness :
  uuid_format Examples.uuid1 = true /\
  (exists rc,
     roomCode (exec (createRoom Examples.uuid1 (MediaGranted Examples.camera)
                       Examples.uuid2 PeerOpened) (initial None false))
       = Some rc /\
     matches_room_code rc = true /\
     forall r,
       completion (createRoom Examples.uuid1 (MediaGranted Examples.camera)
                     Examples.uuid2 PeerOpened) (initial None false)
         = Normal r ->
       r = Some rc) /\
  roomCode (exec (joinRoom "ab12cd" (MediaGranted Examples.camera)
                    Examples.uuid2 PeerOpened) (initial None false))
    = Some (toUpperCase "ab12cd") /\
  string_forallb (fun c => negb (is_lower c)) (toUpperCase "ab12cd") = true.
Proof.
  split; [reflexivity|].
  apply (room_code_format Examples.uuid1 "ab12cd"
           (MediaGranted Examples.camera) Examples.uuid2 PeerOpened
           (initial None false)).
  reflexivity.
Defined.

Example createRoom_code_example :
  completion (createRoom Examples.uuid1 (MediaGranted Examples.camera)
                Examples.uuid2 PeerOpened) (initial None false)
  = Normal (Some "3F2A9C").
Proof. reflexivity. Qed.

Example joinRoom_code_example :
  roomCode (exec (joinRoom "ab12cd" (MediaGranted Examples.camera)
                    Examples.uuid2 PeerOpened) (initial None false))
  = Some "AB12CD".
Proof. reflexivity. Qed.

(** ** A denied capture during [createRoom] *)




(** ** Connecting to a peer *)

Lemma connectToPeer_result peerId w p :
  peer w = Some p ->
  connectToPeer peerId w =
  (Normal tt,
   with_trace
     (trace w
      ++ [PeerCall p peerId (localStream w)
            {| call_handle := nextHandle w; call_peer := peerId |};
          PeerConnect p peerId
            {| conn_handle := S (nextHandle w); conn_peer := peerId |}])
     (with_connHandlers
        (connHandlers w
         ++ [{| conn_handle := S (nextHandle w); conn_peer := peerId |}])
        (with_peers
           (JSMap.set (peers w) peerId
              {| call_handle := nextHandle w; call_peer := peerId |})
           (with_callHandlers
              (callHandlers w
               ++ [{| call_handle := nextHandle w; call_peer := peerId |}])
              (with_nextHandle (S (S (nextHandle w))) w))))).
Proof.
  destruct w as [ps ls rc p0 cs u host nh ph ch cnh tr]; simpl.
  intros ->. unfold connectToPeer, bind, gets; simpl.
  unfold with_trace; simpl. now rewrite <- app_assoc.
Qed.

Lemma run_app w h1 h2 : run w (h1 ++ h2) = run (run w h1) h2.
Proof. apply fold_left_app. Qed.

Lemma connect_all_keeps_record ps : forall w p q,
  peer w = Some p ->
  (exists call, JSMap.get (peers w) q = Some call /\ call_peer call = q) ->
  exists call,
    JSMap.get (peers (run w (connect_all ps))) q = Some call /\
    call_peer call = q.
Proof.
  induction ps as [|q0 ps IH]; intros w p q Hp Hq; simpl; auto.
  apply (IH _ p).
  - unfold exec. now rewrite (connectToPeer_result _ _ _ Hp).
  - unfold exec. rewrite (connectToPeer_result _ _ _ Hp). simpl.
    destruct (String.eqb q0 q) eqn:E.
    + apply String.eqb_eq in E. subst q0. rewrite get_set_same. eauto.
    + apply String.eqb_neq in E. now rewrite get_set_other.
Qed.

(** C1, as stated, fails: bob has a record in both maps, his call is being
    negotiated and his data channel is open; a further [connectToPeer] for
    bob initiates a second media call and a second data connection. *)
Lemma connectToPeer_twice_dials_twice :
  JSMap.get (peers Examples.bob_connected) "bob"
    = Some {| call_handle := 0; call_peer := "bob" |} /\
  JSMap.get (connections Examples.bob_connected) "bob"
    = Some Examples.bob_dialled /\
  called (trace Examples.bob_connected) = ["bob"] /\
  called (trace (exec (connectToPeer "bob") Examples.bob_connected))
    = ["bob"; "bob"] /\
  dialled (trace (exec (connectToPeer "bob") Examples.bob_connected))
    = ["bob"; "bob"] /\
  exec (connectToPeer "bob") Examples.bob_connected <> Examples.bob_connected.
Proof.
  repeat split. vm_compute. discriminate.
Qed.

Lemma connect_all_dials ps : forall w p,
  peer w = Some p ->
  NoDup (JSMap.keys (peers w)) ->
  NoDup (JSMap.keys (connections w)) ->
  called (trace (run w (connect_all ps))) = called (trace w) ++ ps /\
  dialled (trace (run w (connect_all ps))) = dialled (trace w) ++ ps /\
  NoDup (JSMap.keys (peers (run w (connect_all ps)))) /\
  NoDup (JSMap.keys (connections (run w (connect_all ps)))) /\
  (forall q, In q ps ->
     exists call,
       JSMap.get (peers (run w (connect_all ps))) q = Some call /\
       call_peer call = q).
Proof.
  induction ps as [|q0 ps IH]; intros w p Hp Hps Hcs; simpl.
  - rewrite !app_nil_r. repeat split; auto. intros q [].
  - assert (Hstep := connectToPeer_result q0 w p Hp).
    destruct (IH (exec (connectToPeer q0) w) p) as (H1 & H2 & H3 & H4 & H5);
      unfold exec; rewrite ?Hstep; simpl; auto using NoDup_keys_set.
    unfold exec in *. rewrite Hstep in *. simpl in *.
    split; [|split; [|repeat split; auto]].
    + rewrite H1. unfold called. rewrite flat_map_app. simpl.
      now rewrite <- app_assoc.
    + rewrite H2. unfold dialled. rewrite flat_map_app. simpl.
      now rewrite <- app_assoc.
    + intros q [<-|Hq]; auto.
      apply (connect_all_keeps_record ps _ p); simpl; auto.
      rewrite get_set_same. eauto.
Qed.

(** What a run of [connectToPeer] calls keeps: the identity and the local
    stream; the handle counter advances by two per call; the trace only
    grows; the entry of a peer that is not dialled stays. *)
Lemma connect_all_state ps : forall w p,
  peer w = Some p ->
  peer (run w (connect_all ps)) = Some p /\
  localStream (run w (connect_all ps)) = localStream w /\
  nextHandle (run w (connect_all ps)) = nextHandle w + 2 * List.length ps /\
  (forall a, In a (trace w) -> In a (trace (run w (connect_all ps)))) /\
  (forall q, ~ In q ps ->
     JSMap.get (peers (run w (connect_all ps))) q = JSMap.get (peers w) q).
Proof.
  induction ps as [|q0 ps IH]; intros w p Hp; simpl.
  - repeat split; auto.
  - assert (Hstep := connectToPeer_result q0 w p Hp).
    destruct (IH (exec (connectToPeer q0) w) p) as (H1 & H2 & H3 & H4 & H5).
    { unfold exec. now rewrite Hstep. }
    unfold exec in *. rewrite Hstep in *. simpl in *.
    split; [exact H1|]. split; [exact H2|]. split; [lia|]. split.
    + intros a Ha. apply H4. apply in_or_app. now left.
    + intros q Hq. rewrite H5 by tauto. apply get_set_other. tauto.
Qed.

(** The last [connectToPeer] for a peer decides the peer's entry. *)
Lemma connect_all_last_call w p pre q post :
  peer w = Some p ->
  ~ In q post ->
  JSMap.get (peers (run w (connect_all (pre ++ q :: post)))) q
    = Some {| call_handle := nextHandle w + 2 * List.length pre;
              call_peer := q |} /\
  In (PeerCall p q (localStream w)
        {| call_handle := nextHandle w + 2 * List.length pre;
           call_peer := q |})
    (trace (run w (connect_all (pre ++ q :: post)))).
Proof.
  intros Hp Hq.
  unfold connect_all. rewrite map_app, run_app. simpl map.
  change (map (fun q0 => Cmd (ConnectToPeer q0)) pre) with (connect_all pre).
  change (map (fun q0 => Cmd (ConnectToPeer q0)) post)
    with (connect_all post).
  destruct (connect_all_state pre w p Hp) as (Hp1 & Hs1 & Hn1 & _ & _).
  set (w1 := run w (connect_all pre)) in *.
  change (run w1 (Cmd (ConnectToPeer q) :: connect_all post))
    with (run (exec (connectToPeer q) w1) (connect_all post)).
  assert (Hstep := connectToPeer_result q w1 p Hp1).
  destruct (connect_all_state post (exec (connectToPeer q) w1) p)
    as (_ & _ & _ & Htr & Hkeep).
  { unfold exec. now rewrite Hstep. }
  rewrite (Hkeep q Hq). split.
  - unfold exec. rewrite Hstep. simpl. rewrite get_set_same.
    now rewrite Hn1.
  - apply Htr. unfold exec. rewrite Hstep. simpl.
    apply in_or_app. right. rewrite Hn1, Hs1. simpl. auto.
Qed.

(** C1, amended: with a transport identity in place, every [connectToPeer]
    initiates one media call and one data connection, whether or not the
    peer already has a record; the new call replaces the peer's entry in the
    media-peers map: after a sequence of [connectToPeer] calls the entry of
    a peer is the call that the last [connectToPeer] for that peer obtained
    from the transport.  After any such sequence each map of the registry
    has at most one entry per peer id, and every peer of the sequence has
    its entry in the media-peers map. *)
Theorem connectToPeer_always_dials (w : World) (p : Peer)
    (ps : list PeerId) :
  peer w = Some p ->
  NoDup (JSMap.keys (peers w)) ->
  NoDup (JSMap.keys (connections w)) ->
  called (trace (run w (connect_all ps))) = called (trace w) ++ ps /\
  dialled (trace (run w (connect_all ps))) = dialled (trace w) ++ ps /\
  NoDup (JSMap.keys (peers (run w (connect_all ps)))) /\
  NoDup (JSMap.keys (connections (run w (connect_all ps)))) /\
  (forall q, In q ps ->
     exists call,
       JSMap.get (peers (run w (connect_all ps))) q = Some call /\
       call_peer call = q) /\
  (forall pre q post,
     ps = pre ++ q :: post -> ~ In q post ->
     JSMap.get (peers (run w (connect_all ps))) q
       = Some {| call_handle := nextHandle w + 2 * List.length pre;
                 call_peer := q |} /\
     In (PeerCall p q (localStream w)
           {| call_handle := nextHandle w + 2 * List.length pre;
              call_peer := q |})
       (trace (run w (connect_all ps)))).
Proof.
  intros Hp Hps Hcs.
  destruct (connect_all_dials ps w p Hp Hps Hcs) as (H1 & H2 & H3 & H4 & H5).
  repeat (split; [assumption|]).
  intros pre q post -> Hq. now apply connect_all_last_call.
Qed.

Lemma connectToPeer_always_dials_witness :
  peer Examples.active = Some Examples.me /\
  called (trace (run Examples.active (connect_all ["bob"; "bob"; "alice"])))
    = called (trace Examples.active) ++ ["bob"; "bob"; "alice"] /\
  NoDup (JSMap.keys
           (peers (run Examples.active (connect_all ["bob"; "bob"; "alice"]))))
  /\
  JSMap.get
    (peers (run Examples.active (connect_all ["bob"; "bob"; "alice"]))) "bob"
    = Some {| call_handle := nextHandle Examples.active + 2 * 1;
              call_peer := "bob" |}.
Proof.
  assert (H : peer Examples.active = Some Examples.me) by reflexivity.
  split; [exact H|].
  destruct (connectToPeer_always_dials Examples.active Examples.me
              ["bob"; "bob"; "alice"] H) as (H1 & _ & H3 & _ & _ & H6).
  - constructor.
  - constructor.
  - split; [exact H1|split; [exact H3|]].
    apply (H6 ["bob"] "bob" ["alice"]); [reflexivity|].
    intros [E|[]]. discriminate E.
Defined.

(** ** Closing a media call *)

(** The ['close'] callback of a call publishes [peer:disconnect] and never
    touches the media-peers map, however often it was installed. *)
Lemma call_closed_keeps_peers w call :
  peers (exec (deliver (CallClosed call)) w) = peers w /\
  connections (exec (deliver (CallClosed call)) w) = connections w.
Proof.
  unfold deliver, exec, bind, gets; simpl.
  apply (times_preserves
           (fun w0 => peers w0 = peers w /\ connections w0 = connections w));
    auto.
Qed.

(** C4 on the code: bob's call comes in (no data connection exists for bob),
    then the call closes.  Both channel states are terminal, [peer:disconnect]
    has been published, and bob's entry is still in the media-peers map. *)
Theorem call_close_keeps_record :
  mediaState Examples.call_then_close Examples.bob_call = Closed /\
  terminal (mediaState Examples.call_then_close Examples.bob_call) = true /\
  (forall c, dataState Examples.call_then_close c = NoChannel) /\
  (forall c, terminal (dataState Examples.call_then_close c) = true) /\
  emitted (trace (run Examples.active
                    (events_only Examples.call_then_close)))
    = emitted (trace Examples.active)
      ++ [("peer:disconnect", PeerIdData "bob")] /\
  JSMap.get (peers (run Examples.active
                      (events_only Examples.call_then_close))) "bob"
    = Some Examples.bob_call /\
  has_record (run Examples.active (events_only Examples.call_then_close))
    "bob" = true.
Proof.
  repeat split.
Qed.

(** ** More on maps: repeated updates and values *)

Section JSMapMore.
Context {V : Type}.
Implicit Types (m : JSMap.t V) (k : string) (v : V).

Lemma set_set_same m k v :
  JSMap.set (JSMap.set m k v) k v = JSMap.set m k v.
Proof.
  induction m as [|[k' v'] m IH]; simpl.
  - now rewrite String.eqb_refl.
  - destruct (String.eqb k' k) eqn:E; simpl; rewrite E; congruence.
Qed.

Lemma delete_absent m k : ~ In k (JSMap.keys m) -> JSMap.delete m k = m.
Proof.
  induction m as [|[k' v'] m IH]; simpl; auto.
  intros H. destruct (String.eqb k' k) eqn:E.
  - apply String.eqb_eq in E. tauto.
  - f_equal. tauto.
Qed.

Lemma delete_delete_same m k :
  NoDup (JSMap.keys m) ->
  JSMap.delete (JSMap.delete m k) k = JSMap.delete m k.
Proof.
  intros H. apply delete_absent.
  apply get_None_keys. now apply get_delete_same.
Qed.

Lemma In_values m v : In v (JSMap.values m) <-> exists k, In (k, v) m.
Proof.
  unfold JSMap.values. rewrite in_map_iff. split.
  - intros [[k v'] [<- H]]. now exists k.
  - intros [k H]. now exists (k, v).
Qed.

(** Values that determine their key are not repeated. *)
Lemma NoDup_values m (key : V -> string) :
  NoDup (JSMap.keys m) ->
  (forall k v, In (k, v) m -> key v = k) ->
  NoDup (JSMap.values m).
Proof.
  induction m as [|[k v] m IH]; simpl; intros Hnd Hkey; [constructor|].
  inversion Hnd; subst. constructor.
  - intros Hin. apply In_values in Hin as [k' Hin].
    assert (key v = k) by auto. assert (key v = k') by auto.
    apply H1. subst k'. rewrite <- H. change (key v) with (fst (key v, v)).
    now apply in_map.
  - apply IH; auto.
Qed.
End JSMapMore.

(** ** Delivering transport events *)

Lemma call_eqb_eq a b : call_eqb a b = true <-> a = b.
Proof.
  destruct a as [h1 p1], b as [h2 p2]. unfold call_eqb; simpl.
  rewrite andb_true_iff, Nat.eqb_eq, String.eqb_eq.
  split; [intros [-> ->]; reflexivity|intros [= -> ->]; auto].
Qed.

Lemma conn_eqb_eq a b : conn_eqb a b = true <-> a = b.
Proof.
  destruct a as [h1 p1], b as [h2 p2]. unfold conn_eqb; simpl.
  rewrite andb_true_iff, Nat.eqb_eq, String.eqb_eq.
  split; [intros [-> ->]; reflexivity|intros [= -> ->]; auto].
Qed.

Lemma installed_app {A : Type} (eqb : A -> A -> bool) x l l' :
  installed eqb x (l ++ l') = installed eqb x l + installed eqb x l'.
Proof. unfold installed. now rewrite filter_app, length_app. Qed.

(** A callback that ran at least once leaves what its first run establishes
    and its later runs keep. *)
Lemma times_establishes (P Q : World -> Prop) (m : M unit) n w :
  (forall w0, P w0 -> Q (exec m w0)) ->
  (forall w0, Q w0 -> Q (exec m w0)) ->
  P w -> n <> 0 -> Q (exec (times n m) w).
Proof.
  intros HPQ HQ HP Hn. destruct n as [|n]; [contradiction|].
  simpl. unfold exec, bind.
  specialize (HPQ w HP). unfold exec in HPQ.
  destruct (m w) as [[[]|e|] w'] eqn:E; simpl in *; auto.
  now apply (times_preserves Q m n w').
Qed.

Lemma frame_refl w : frame w w.
Proof. repeat split. exists []. now rewrite app_nil_r. Qed.

Lemma frame_trans w1 w2 w3 : frame w1 w2 -> frame w2 w3 -> frame w1 w3.
Proof.
  intros (Hu & Hc & l & Hl) (Hu' & Hc' & l' & Hl').
  repeat split; try congruence.
  exists (l ++ l'). rewrite Hl', Hl. now rewrite app_assoc.
Qed.

Lemma times_frame (m : M unit) n w :
  (forall w0, frame w0 (exec m w0)) -> frame w (exec (times n m) w).
Proof.
  intros Hm. apply (times_preserves (frame w)); [|apply frame_refl].
  intros w0 H. eapply frame_trans; eauto.
Qed.

Ltac frame_by_computation :=
  repeat split; simpl;
  first [ exists []; now rewrite app_nil_r | eexists; reflexivity ].

Lemma handlePeerMessage_frame peerId message now w :
  frame w (exec (handlePeerMessage peerId message now) w).
Proof.
  unfold handlePeerMessage, exec.
  destruct (get_prop message "type") as [e|type]; [apply frame_refl|].
  destruct (strict_eq_str type "chat"); [|apply frame_refl].
  destruct (get_prop message "sender"), (get_prop message "content");
    frame_by_computation.
Qed.

(** Every event other than ['open'] and ['close'] of a data connection
    leaves the data-connections map alone. *)
Lemma deliver_frame e w :
  match e with ConnOpen _ | ConnClosed _ => False | _ => True end ->
  frame w (exec (deliver e) w).
Proof.
  destruct e; intros H; try contradiction;
    unfold deliver, exec, bind, gets; simpl; apply times_frame; intros w0.
  - frame_by_computation.
  - frame_by_computation.
  - frame_by_computation.
  - frame_by_computation.
  - apply handlePeerMessage_frame.
Qed.

Lemma deliver_open c w :
  installed conn_eqb c (connHandlers w) <> 0 ->
  connections (exec (deliver (ConnOpen c)) w)
    = JSMap.set (connections w) (conn_peer c) c /\
  user (exec (deliver (ConnOpen c)) w) = user w /\
  connHandlers (exec (deliver (ConnOpen c)) w) = connHandlers w.
Proof.
  intros Hn. unfold deliver, exec, bind, gets; simpl.
  apply (times_establishes
           (fun w0 => w0 = w)
           (fun w0 => connections w0
                        = JSMap.set (connections w) (conn_peer c) c /\
                      user w0 = user w /\
                      connHandlers w0 = connHandlers w)); auto.
  - intros w0 ->. repeat split.
  - intros w0 (Hc & Hu & Hh). simpl. rewrite Hc, set_set_same. auto.
Qed.

Lemma deliver_closed c w :
  NoDup (JSMap.keys (connections w)) ->
  installed conn_eqb c (connHandlers w) <> 0 ->
  connections (exec (deliver (ConnClosed c)) w)
    = JSMap.delete (connections w) (conn_peer c) /\
  user (exec (deliver (ConnClosed c)) w) = user w /\
  connHandlers (exec (deliver (ConnClosed c)) w) = connHandlers w.
Proof.
  intros Hnd Hn. unfold deliver, exec, bind, gets; simpl.
  apply (times_establishes
           (fun w0 => w0 = w)
           (fun w0 => connections w0
                        = JSMap.delete (connections w) (conn_peer c) /\
                      user w0 = user w /\
                      connHandlers w0 = connHandlers w)); auto.
  - intros w0 ->. repeat split.
  - intros w0 (Hc & Hu & Hh). simpl. rewrite Hc, delete_delete_same; auto.
Qed.

Lemma deliver_not_installed e c w :
  e = ConnOpen c \/ e = ConnClosed c ->
  installed conn_eqb c (connHandlers w) = 0 ->
  exec (deliver e) w = w.
Proof.
  intros [-> | ->] H; unfold deliver, exec, bind, gets; simpl; now rewrite H.
Qed.

(** ** Sending *)

Lemma sendMessage_result message now w :
  sendMessage message now w =
  (Normal tt,
   with_trace
     (trace w
      ++ map (fun c => ConnSend c (chat_payload (sender_name (user w)) message))
           (JSMap.values (connections w))
      ++ [Emit "chat:message"
            (ChatMessage (JStr (sender_name (user w))) (JStr message) now)])
     w).
Proof.
  unfold sendMessage. cbv beta iota delta [bind gets].
  rewrite forEach_act. unfold emit, act, modify, with_trace; simpl.
  now rewrite <- app_assoc.
Qed.

(** ** The data-connections map holds opened channels only *)

Lemma perform_frame c w :
  frame w (exec (perform c) w) \/
  (user (exec (perform c) w) = user w /\
   connections (exec (perform c) w) = JSMap.empty).
Proof.
  destruct c as [uuid media peerUuid outcome|code media peerUuid outcome
                |peerId|message now| |]; simpl.
  - left. unfold createRoom.
    generalize (toUpperCase (slice0 6 uuid)) as rc0. intros rc0.
    destruct w as [ps ls rc p cs u host nh ph ch cnh tr].
    destruct media, outcome, host, p; frame_by_computation.
  - left. unfold joinRoom.
    generalize (toUpperCase code) as rc0. intros rc0.
    destruct w as [ps ls rc p cs u host nh ph ch cnh tr].
    destruct media, outcome, host, p; frame_by_computation.
  - left. destruct (peer w) as [p|] eqn:Hp.
    + unfold exec. rewrite (connectToPeer_result _ _ _ Hp).
      frame_by_computation.
    + unfold exec, connectToPeer, bind, gets. rewrite Hp. apply frame_refl.
  - left. unfold exec. rewrite sendMessage_result. frame_by_computation.
  - right. unfold exec. rewrite stopMedia_result. auto.
  - right. unfold exec, leaveRoom, bind. rewrite stopMedia_result. auto.
Qed.

Lemma opened_inv_frame u h i w w' :
  opened_inv u h w -> frame w w' -> opened_inv u (h ++ [i]) w'.
Proof.
  intros (Hu & Hnd & Hget) (Hu' & Hc & l & Hl).
  unfold opened_inv. rewrite Hu', Hc, Hl.
  split; [auto|split; [auto|]].
  intros p c H. destruct (Hget p c H) as (H1 & H2 & H3).
  repeat split; auto.
  - apply in_or_app. now left.
  - rewrite installed_app. lia.
Qed.

Lemma opened_inv_step u h w i :
  opened_inv u h w -> opened_inv u (h ++ [i]) (step w i).
Proof.
  intros Hinv. destruct i as [c|e]; simpl.
  - destruct (perform_frame c w) as [Hf|[Hu Hc]].
    + eapply opened_inv_frame; eauto.
    + destruct Hinv as (Hu0 & _). unfold opened_inv. rewrite Hu, Hc.
      split; [auto|split; [constructor|intros p c0 H; discriminate H]].
  - destruct e as [p call|p conn|call s|call|conn|conn data now|conn];
      try (eapply opened_inv_frame; eauto; now apply deliver_frame).
    + destruct (Nat.eq_dec (installed conn_eqb conn (connHandlers w)) 0)
        as [Hz|Hnz].
      * rewrite (deliver_not_installed _ conn w) by auto.
        eapply opened_inv_frame; eauto using frame_refl.
      * destruct (deliver_open conn w Hnz) as (Hc & Hu & Hh).
        destruct Hinv as (Hu0 & Hnd & Hget).
        unfold opened_inv. rewrite Hc, Hu, Hh.
        repeat split; auto using NoDup_keys_set;
          destruct (String.eqb (conn_peer conn) p) eqn:E;
          try (apply String.eqb_eq in E; subst p;
               rewrite get_set_same in H; injection H as <-);
          try (apply String.eqb_neq in E;
               rewrite get_set_other in H by assumption;
               apply Hget in H as (? & ? & ?));
          auto; apply in_or_app; simpl; auto.
    + destruct (Nat.eq_dec (installed conn_eqb conn (connHandlers w)) 0)
        as [Hz|Hnz].
      * rewrite (deliver_not_installed _ conn w) by auto.
        eapply opened_inv_frame; eauto using frame_refl.
      * destruct Hinv as (Hu0 & Hnd & Hget).
        destruct (deliver_closed conn w Hnd Hnz) as (Hc & Hu & Hh).
        unfold opened_inv. rewrite Hc, Hu, Hh.
        repeat split; auto using NoDup_keys_delete;
          destruct (String.eqb (conn_peer conn) p) eqn:E;
          try (apply String.eqb_eq in E; subst p;
               rewrite get_delete_same in H by assumption; discriminate H);
          apply String.eqb_neq in E;
          rewrite get_delete_other in H by assumption;
          apply Hget in H as (? & ? & ?);
          auto; apply in_or_app; simpl; auto.
Qed.

Lemma opened_inv_run u host h : opened_inv u h (run (initial u host) h).
Proof.
  induction h as [|i h IH] using rev_ind.
  - split; [reflexivity|split; [constructor|intros p c H; discriminate H]].
  - rewrite run_app. simpl. now apply opened_inv_step.
Qed.


(** ** Who receives a broadcast *)

Lemma one_channel_per_peer_inj h c1 c2 :
  one_channel_per_peer h = true ->
  In c1 (data_conns h) -> In c2 (data_conns h) ->
  conn_peer c1 = conn_peer c2 -> c1 = c2.
Proof.
  unfold one_channel_per_peer. intros H H1 H2 Hp.
  rewrite forallb_forall in H. specialize (H c1 H1).
  rewrite forallb_forall in H. specialize (H c2 H2).
  rewrite Hp, String.eqb_refl in H. simpl in H. now apply conn_eqb_eq.
Qed.

Lemma conn_eqb_refl c : conn_eqb c c = true.
Proof. now apply conn_eqb_eq. Qed.

Lemma open_inv_equiv known st st' w w' :
  (forall c, st' c = Established <-> st c = Established) ->
  connections w' = connections w ->
  open_inv known st w -> open_inv known st' w'.
Proof.
  intros Heq Hc (Hnd & H2 & H3). unfold open_inv. rewrite Hc.
  split; [auto|split].
  - intros p c H. destruct (H2 p c H). split; auto. now apply Heq.
  - intros c H. apply H3. now apply Heq.
Qed.

Section OneChannelPerPeer.
Variable known : list DataConnection.
Hypothesis known_inj : forall c1 c2,
  In c1 known -> In c2 known -> conn_peer c1 = conn_peer c2 -> c1 = c2.

Lemma open_inv_open st w c0 :
  In c0 known ->
  installed conn_eqb c0 (connHandlers w) <> 0 ->
  open_inv known st w ->
  open_inv known (fun c => data_step c (st c) (ConnOpen c0))
    (exec (deliver (ConnOpen c0)) w).
Proof.
  intros Hk Hn (Hnd & H2 & H3).
  destruct (deliver_open c0 w Hn) as (Hc & _).
  unfold open_inv. rewrite Hc. simpl.
  split; [auto using NoDup_keys_set|split].
  - intros p c H.
    destruct (String.eqb (conn_peer c0) p) eqn:E.
    + apply String.eqb_eq in E. subst p. rewrite get_set_same in H.
      injection H as <-. now rewrite conn_eqb_refl.
    + apply String.eqb_neq in E. rewrite get_set_other in H by assumption.
      destruct (H2 p c H). split; auto. now destruct (conn_eqb c0 c).
  - intros c H. destruct (conn_eqb c0 c) eqn:E.
    + apply conn_eqb_eq in E. subst c. split; auto. apply get_set_same.
    + destruct (H3 c H) as [Hin Hget]. split; auto.
      rewrite get_set_other; auto.
      intros Hp. apply known_inj in Hp; auto. subst c.
      now rewrite conn_eqb_refl in E.
Qed.

Lemma open_inv_closed st w c0 :
  In c0 known ->
  installed conn_eqb c0 (connHandlers w) <> 0 ->
  open_inv known st w ->
  open_inv known (fun c => data_step c (st c) (ConnClosed c0))
    (exec (deliver (ConnClosed c0)) w).
Proof.
  intros Hk Hn (Hnd & H2 & H3).
  destruct (deliver_closed c0 w Hnd Hn) as (Hc & _).
  unfold open_inv. rewrite Hc. simpl.
  split; [auto using NoDup_keys_delete|split].
  - intros p c H.
    destruct (String.eqb (conn_peer c0) p) eqn:E.
    + apply String.eqb_eq in E. subst p.
      rewrite get_delete_same in H by assumption. discriminate H.
    + apply String.eqb_neq in E.
      rewrite get_delete_other in H by assumption.
      destruct (H2 p c H) as [Hp Hst]. split; auto.
      destruct (conn_eqb c0 c) eqn:E'; auto.
      apply conn_eqb_eq in E'. subst c. contradiction.
  - intros c H. destruct (conn_eqb c0 c) eqn:E; [discriminate H|].
    destruct (H3 c H) as [Hin Hget]. split; auto.
    rewrite get_delete_other; auto.
    intros Hp. apply known_inj in Hp; auto. subst c.
    now rewrite conn_eqb_refl in E.
Qed.

Lemma open_inv_run h : forall st w,
  open_inv known st w ->
  attached w h = true ->
  incl (data_conns h) known ->
  open_inv known (fun c => fold_left (data_step c) h (st c))
    (run w (events_only h)).
Proof.
  induction h as [|e h IH]; intros st w Hinv Hatt Hincl; simpl; auto.
  simpl in Hatt. apply andb_prop in Hatt as [Hguard Hatt].
  assert (Hrest : incl (data_conns h) known).
  { intros c Hc. apply Hincl. unfold data_conns. simpl.
    apply in_or_app. now right. }
  apply (IH (fun c => data_step c (st c) e)); auto.
  destruct e as [p call|p conn|call s|call|conn|conn data now|conn];
    try (apply (open_inv_equiv known st _ w); auto;
         [intros c; reflexivity|now apply deliver_frame]).
  - apply (open_inv_equiv known st _ w); auto;
      [|now apply deliver_frame].
    intros c. simpl. destruct (conn_eqb conn c); [|reflexivity].
    destruct (st c); split; auto; discriminate.
  - apply open_inv_open; auto.
    + apply Hincl. simpl. auto.
    + apply negb_true_iff, Nat.eqb_neq in Hguard. exact Hguard.
  - apply open_inv_closed; auto.
    + apply Hincl. simpl. auto.
    + apply negb_true_iff, Nat.eqb_neq in Hguard. exact Hguard.
Qed.
End OneChannelPerPeer.

(** One data connection per peer: let the transport deliver any events for
    which every peer has one data connection, starting with an empty
    data-connections map.  Then
    [sendMessage] completes; it sends the tagged payload once on each
    connection of the map, and these are exactly the connections whose data
    channel is open (its last report is ['open']), so closed channels and
    channels that never opened get nothing; and it publishes exactly one
    [chat:message] echo after the sends, whatever the number of peers. *)
Theorem sendMessage_reaches_open_channels (w0 : World)
    (h : list TransportEvent) (message : string) (now : Time) :
  connections w0 = JSMap.empty ->
  attached w0 h = true ->
  one_channel_per_peer h = true ->
  exists targets,
    sendMessage message now (run w0 (events_only h)) =
      (Normal tt,
       with_trace
         (trace (run w0 (events_only h))
          ++ map (fun c =>
                    ConnSend c (chat_payload (sender_name (user w0)) message))
               targets
          ++ [Emit "chat:message"
                (ChatMessage (JStr (sender_name (user w0))) (JStr message)
                   now)])
         (run w0 (events_only h))) /\
    NoDup targets /\
    forall c, In c targets <-> dataState h c = Established.
Proof.
  intros Hempty Hatt Hone.
  assert (Hinv : open_inv (data_conns h) (fun c => dataState h c)
                   (run w0 (events_only h))).
  { apply (open_inv_run (data_conns h)) with (st := fun _ => NoChannel);
      auto using incl_refl.
    - intros c1 c2. now apply one_channel_per_peer_inj.
    - unfold open_inv. rewrite Hempty.
      split; [constructor|split]; [intros p c H|intros c H];
        discriminate H. }
  destruct Hinv as (Hnd & H2 & H3).
  exists (JSMap.values (connections (run w0 (events_only h)))).
  rewrite sendMessage_result.
  assert (Hu : user (run w0 (events_only h)) = user w0).
  { clear. revert w0. induction h as [|e h IH]; intros w0; simpl; auto.
    rewrite IH. clear IH.
    destruct e as [p call|p conn|call s|call|conn|conn data now|conn];
      try (now apply deliver_frame).
    - destruct (Nat.eq_dec (installed conn_eqb conn (connHandlers w0)) 0)
        as [Hz|Hnz].
      + now rewrite (deliver_not_installed _ conn w0) by auto.
      + now apply deliver_open.
    - unfold deliver, exec, bind, gets; simpl.
      now apply (times_preserves (fun w => user w = user w0)). }
  rewrite Hu. split; [reflexivity|split].
  - apply (NoDup_values _ conn_peer); auto.
    intros k v Hin. apply (In_get_Some _ _ _ Hnd) in Hin.
    now apply H2 in Hin.
  - intros c. rewrite In_values. split.
    + intros [k Hin]. apply (In_get_Some _ _ _ Hnd) in Hin.
      now apply H2 in Hin.
    + intros Hst. exists (conn_peer c). apply get_Some_In. now apply H3.
Qed.

Lemma sendMessage_reaches_open_channels_witness :
  (connections Examples.active = JSMap.empty /\
   attached Examples.active Examples.two_open_one_closed = true /\
   one_channel_per_peer Examples.two_open_one_closed = true) /\
  exists targets,
    sendMessage "hello" 7%Z
      (run Examples.active (events_only Examples.two_open_one_closed)) =
      (Normal tt,
       with_trace
         (trace (run Examples.active
                   (events_only Examples.two_open_one_closed))
          ++ map (fun c =>
                    ConnSend c
                      (chat_payload (sender_name (user Examples.active))
                         "hello"))
               targets
          ++ [Emit "chat:message"
                (ChatMessage (JStr (sender_name (user Examples.active)))
                   (JStr "hello") 7%Z)])
         (run Examples.active (events_only Examples.two_open_one_closed))) /\
    NoDup targets /\
    forall c,
      In c targets <->
      dataState Examples.two_open_one_closed c = Established.
Proof.
  split; [repeat split|].
  apply (sendMessage_reaches_open_channels Examples.active
           Examples.two_open_one_closed "hello" 7%Z); reflexivity.
Defined.

(** The scenario of the specification: alice and bob open, carol closed. *)
Example sendMessage_two_open_one_closed :
  sent (trace (exec (sendMessage "hello" 7%Z)
                 (run Examples.active
                    (events_only Examples.two_open_one_closed))))
    = [(Examples.alice_conn, chat_payload "Anonymous" "hello");
       (Examples.bob_conn, chat_payload "Anonymous" "hello")] /\
  emitted (trace (exec (sendMessage "hello" 7%Z)
                    (run Examples.active
                       (events_only Examples.two_open_one_closed))))
    = emitted (trace (run Examples.active
                        (events_only Examples.two_open_one_closed)))
      ++ [("chat:message",
           ChatMessage (JStr "Anonymous") (JStr "hello") 7%Z)].
Proof. split; reflexivity. Qed.

(** * Further properties of the study room *)

Import RoomView.

(** ** The registry under all inputs *)

Lemma perform_peers c w :
  peers (exec (perform c) w) = peers w \/
  peers (exec (perform c) w) = JSMap.empty \/
  exists call,
    peers (exec (perform c) w) = JSMap.set (peers w) (call_peer call) call.
Proof.
  destruct c as [uuid media peerUuid outcome|code media peerUuid outcome
                |peerId|message now| |]; simpl.
  - left. unfold createRoom.
    generalize (toUpperCase (slice0 6 uuid)) as rc0. intros rc0.
    destruct w as [ps ls rc p cs u host nh ph ch cnh tr].
    destruct media, outcome, host, p; reflexivity.
  - left. unfold joinRoom.
    generalize (toUpperCase code) as rc0. intros rc0.
    destruct w as [ps ls rc p cs u host nh ph ch cnh tr].
    destruct media, outcome, host, p; reflexivity.
  - destruct (peer w) as [p|] eqn:Hp.
    + right. right. unfold exec. rewrite (connectToPeer_result _ _ _ Hp).
      now exists {| call_handle := nextHandle w; call_peer := peerId |}.
    + left. unfold exec, connectToPeer, bind, gets. now rewrite Hp.
  - left. unfold exec. now rewrite sendMessage_result.
  - right. left. unfold exec. now rewrite stopMedia_result.
  - right. left. unfold exec, leaveRoom, bind. now rewrite stopMedia_result.
Qed.

Lemma peers_ok_set w w' call :
  peers_ok w ->
  peers w' = JSMap.set (peers w) (call_peer call) call ->
  peers_ok w'.
Proof.
  intros [Hnd Hkey] Hp. unfold peers_ok. rewrite Hp.
  split; [auto using NoDup_keys_set|].
  intros p c H. destruct (String.eqb (call_peer call) p) eqn:E.
  - apply String.eqb_eq in E. subst p. rewrite get_set_same in H.
    now injection H as <-.
  - apply String.eqb_neq in E. rewrite get_set_other in H by assumption.
    auto.
Qed.

Lemma peers_ok_same w w' : peers_ok w -> peers w' = peers w -> peers_ok w'.
Proof. intros H Hp. unfold peers_ok. now rewrite Hp. Qed.

Lemma peers_ok_empty w : peers w = JSMap.empty -> peers_ok w.
Proof.
  intros H. unfold peers_ok. rewrite H.
  split; [constructor|intros p c Hg; discriminate Hg].
Qed.

Lemma handlePeerMessage_peers peerId message now w :
  peers (exec (handlePeerMessage peerId message now) w) = peers w.
Proof.
  unfold handlePeerMessage, exec.
  destruct (get_prop message "type") as [e|type]; [reflexivity|].
  destruct (strict_eq_str type "chat"); [|reflexivity].
  now destruct (get_prop message "sender"), (get_prop message "content").
Qed.

Lemma deliver_peers_ok e w : peers_ok w -> peers_ok (exec (deliver e) w).
Proof.
  intros H.
  destruct e as [p call|p conn|call s|call|conn|conn data now|conn];
    unfold deliver, exec, bind, gets; simpl;
    (apply (times_preserves peers_ok); [intros w0 H0|assumption]).
  - apply (peers_ok_set w0 _ call); [assumption|reflexivity].
  - apply (peers_ok_same w0); [assumption|reflexivity].
  - apply (peers_ok_same w0); [assumption|reflexivity].
  - apply (peers_ok_same w0); [assumption|reflexivity].
  - apply (peers_ok_same w0); [assumption|reflexivity].
  - apply (peers_ok_same w0); auto. apply handlePeerMessage_peers.
  - apply (peers_ok_same w0); [assumption|reflexivity].
Qed.

Lemma step_peers_ok w i : peers_ok w -> peers_ok (step w i).
Proof.
  intros H. destruct i as [c|e]; simpl; [|now apply deliver_peers_ok].
  destruct (perform_peers c w) as [Hp|[Hp|[call Hp]]].
  - now apply (peers_ok_same w).
  - now apply peers_ok_empty.
  - now apply (peers_ok_set w _ call).
Qed.

Lemma run_peers_ok h : forall w, peers_ok w -> peers_ok (run w h).
Proof.
  induction h as [|i h IH]; intros w H; simpl; auto.
  apply IH. now apply step_peers_ok.
Qed.

(** X1: after any inputs (commands and transport events) from the initial
    state, neither map of the registry repeats a key, and every entry is
    filed under the [peer] of the call or connection it holds. *)
Theorem registry_filed_by_peer (u : option User) (host : bool)
    (h : list Input) :
  filed_by_peer (run (initial u host) h).
Proof.
  destruct (opened_inv_run u host h) as (_ & Hnd & Hget).
  destruct (run_peers_ok h (initial u host)) as [Hp Hk].
  { now apply peers_ok_empty. }
  repeat split; auto. intros p c H. now apply Hget in H.
Qed.

(** ** Entering a room *)

(** X2: [joinRoom] initiates no media call and no data connection, whatever
    its argument and whatever the media and the transport do: the peer list
    it asks for is empty. *)
Theorem joinRoom_dials_nobody (code : string) (media : MediaOutcome)
    (peerUuid : string) (outcome : PeerOutcome) (w : World) :
  called (trace (exec (joinRoom code media peerUuid outcome) w))
    = called (trace w) /\
  dialled (trace (exec (joinRoom code media peerUuid outcome) w))
    = dialled (trace w) /\
  callHandlers (exec (joinRoom code media peerUuid outcome) w)
    = callHandlers w /\
  connHandlers (exec (joinRoom code media peerUuid outcome) w)
    = connHandlers w.
Proof.
  unfold joinRoom.
  generalize (toUpperCase code) as rc0. intros rc0.
  destruct w as [ps ls rc p cs u host nh ph ch cnh tr].
  destruct media, outcome, host, p; cbv -[app flat_map message_or_default];
    unfold called, dialled; rewrite ?flat_map_app; simpl;
    rewrite ?app_nil_r; auto.
Qed.

(** X3: neither [createRoom] nor [joinRoom] writes the media-peers map,
    however they complete: the calls of an earlier room that are still in
    the map stay there.  When no transport identity exists beforehand, so
    that none is destroyed, they leave the data-connections map as it is
    too. *)
Theorem entering_keeps_media_peers (uuid code : string)
    (media : MediaOutcome) (peerUuid : string) (outcome : PeerOutcome)
    (w : World) :
  peers (exec (createRoom uuid media peerUuid outcome) w) = peers w /\
  peers (exec (joinRoom code media peerUuid outcome) w) = peers w /\
  (peer w = None ->
   connections (exec (createRoom uuid media peerUuid outcome) w)
     = connections w /\
   connections (exec (joinRoom code media peerUuid outcome) w)
     = connections w /\
   ~ (exists old,
        In (PeerDestroy old)
          (skipn (List.length (trace w))
             (trace (exec (createRoom uuid media peerUuid outcome) w))))).
Proof.
  unfold createRoom, joinRoom.
  generalize (toUpperCase (slice0 6 uuid)) as rc0. intros rc0.
  generalize (toUpperCase code) as rc1. intros rc1.
  destruct w as [ps ls rc p cs u host nh ph ch cnh tr].
  split; [destruct media, outcome, host, p; reflexivity|].
  split; [destruct media, outcome, host, p; reflexivity|].
  simpl. intros ->.
  split; [destruct media, outcome, host; reflexivity|].
  split; [destruct media, outcome, host; reflexivity|].
  intros [old Hin].
  destruct media, outcome, host;
    cbv -[app skipn List.length In message_or_default] in Hin;
    rewrite <- ?app_assoc, ?skipn_app, ?skipn_all, ?Nat.sub_diag in Hin;
    simpl in Hin;
    repeat (destruct Hin as [Hin|Hin]; [discriminate Hin|]);
    exact Hin.
Qed.

(** X4: when the capture is granted and the new transport identity then
    reports an error, [createRoom] rejects with that error if the top-level
    [showError] exists and otherwise never settles; either way the room code,
    the captured stream and the new identity stay in [StudyRoom], and no
    callback is installed on the identity. *)
Theorem createRoom_transport_failure (uuid : string) (stream : MediaStream)
    (peerUuid : string) (error : JSError) (w : World) :
  completion (createRoom uuid (MediaGranted stream) peerUuid
                (PeerFailed error)) w
    = (if hostShowError w then Abrupt error else Pending) /\
  roomCode (exec (createRoom uuid (MediaGranted stream) peerUuid
                    (PeerFailed error)) w)
    = Some (toUpperCase (slice0 6 uuid)) /\
  localStream (exec (createRoom uuid (MediaGranted stream) peerUuid
                       (PeerFailed error)) w)
    = Some stream /\
  peer (exec (createRoom uuid (MediaGranted stream) peerUuid
                (PeerFailed error)) w)
    = Some {| peer_id := peerUuid |} /\
  peerHandlers (exec (createRoom uuid (MediaGranted stream) peerUuid
                        (PeerFailed error)) w)
    = peerHandlers w /\
  emitted (trace (exec (createRoom uuid (MediaGranted stream) peerUuid
                          (PeerFailed error)) w))
    = emitted (trace w)
      ++ [("media:initialized", StreamData stream);
          ("error", ErrorData error "peer-initialization")].
Proof.
  unfold createRoom.
  generalize (toUpperCase (slice0 6 uuid)) as rc0. intros rc0.
  destruct w as [ps ls rc p cs u host nh ph ch cnh tr].
  destruct host, p; cbv -[app flat_map message_or_default];
    unfold emitted; rewrite ?flat_map_app; simpl;
    rewrite <- ?app_assoc; repeat split.
Qed.

(** X5: when the capture is granted and the identity opens, [createRoom]
    returns the room code it stored; the stream is the local stream, the new
    identity replaces the old one, which is destroyed first if there was
    one, and the coordinator's callbacks are installed on the new identity. *)
Theorem createRoom_success (uuid : string) (stream : MediaStream)
    (peerUuid : string) (w : World) :
  createRoom uuid (MediaGranted stream) peerUuid PeerOpened w =
  (Normal (Some (toUpperCase (slice0 6 uuid))),
   with_trace
     (trace w
      ++ Emit "media:initialized" (StreamData stream)
      :: match peer w with
         | Some old => [PeerDestroy old]
         | None => []
         end
      ++ [NewPeer {| peer_id := peerUuid |}])
     (with_peerHandlers (peerHandlers w ++ [{| peer_id := peerUuid |}])
        (with_peer (Some {| peer_id := peerUuid |})
           (with_localStream (Some stream)
              (with_roomCode (Some (toUpperCase (slice0 6 uuid))) w))))).
Proof.
  unfold createRoom.
  generalize (toUpperCase (slice0 6 uuid)) as rc0. intros rc0.
  destruct w as [ps ls rc p cs u host nh ph ch cnh tr].
  destruct p; cbv -[app]; now rewrite <- ?app_assoc.
Qed.

(** ** Events and callbacks *)

Lemma leaveRoom_handlers w :
  connHandlers (exec leaveRoom w) = connHandlers w /\
  connections (exec leaveRoom w) = JSMap.empty.
Proof.
  unfold exec, leaveRoom, bind. rewrite stopMedia_result. auto.
Qed.

(** X7: leaving the room detaches nothing.  A data connection handled before
    [leaveRoom] that reports ['open'] afterwards is entered into the
    data-connections map of the session that was left, as its only entry. *)
Theorem open_after_leave_is_recorded (w : World) (c : DataConnection) :
  installed conn_eqb c (connHandlers w) <> 0 ->
  JSMap.get
    (connections (run w [Cmd LeaveRoom; Ev (ConnOpen c)])) (conn_peer c)
    = Some c /\
  JSMap.values (connections (run w [Cmd LeaveRoom; Ev (ConnOpen c)])) = [c].
Proof.
  intros Hn. unfold run, fold_left, step, perform.
  destruct (leaveRoom_handlers w) as [Hh Hc].
  destruct (deliver_open c (exec leaveRoom w)) as (Ho & _).
  { now rewrite Hh. }
  rewrite Ho, Hc. simpl. now rewrite String.eqb_refl.
Qed.

Lemma open_after_leave_is_recorded_witness :
  JSMap.values
    (connections
       (run (run Examples.active [Ev (IncomingConnection Examples.me
                                        Examples.bob_conn)])
          [Cmd LeaveRoom; Ev (ConnOpen Examples.bob_conn)]))
    = [Examples.bob_conn].
Proof.
  apply (open_after_leave_is_recorded
           (run Examples.active [Ev (IncomingConnection Examples.me
                                       Examples.bob_conn)])
           Examples.bob_conn).
  vm_compute. discriminate.
Defined.

(** X8: the ['close'] callback deletes by peer id, not by connection.  When
    two handled connections have the same [peer], one opens and then the
    other reports ['close'], the entry of the open one is deleted: the map
    has nothing for that peer, so a later [sendMessage] does not reach the
    open connection. *)
Theorem close_of_other_connection_drops_entry (w : World)
    (live stale : DataConnection) :
  conn_peer stale = conn_peer live ->
  installed conn_eqb live (connHandlers w) <> 0 ->
  installed conn_eqb stale (connHandlers w) <> 0 ->
  filed_by_peer w ->
  JSMap.get (connections (run w [Ev (ConnOpen live)])) (conn_peer live)
    = Some live /\
  JSMap.get
    (connections (run w [Ev (ConnOpen live); Ev (ConnClosed stale)]))
    (conn_peer live) = None /\
  ~ In live
      (JSMap.values
         (connections (run w [Ev (ConnOpen live); Ev (ConnClosed stale)]))).
Proof.
  intros Hp Hl Hs (_ & Hnd & _ & Hkey).
  unfold run, fold_left, step.
  destruct (deliver_open live w Hl) as (Ho & _ & Hh).
  assert (Hnd' : NoDup (JSMap.keys
                          (connections (exec (deliver (ConnOpen live)) w)))).
  { rewrite Ho. now apply NoDup_keys_set. }
  destruct (deliver_closed stale (exec (deliver (ConnOpen live)) w))
    as (Hc & _); auto.
  { now rewrite Hh. }
  assert (Hnone : JSMap.get
                    (connections
                       (exec (deliver (ConnClosed stale))
                          (exec (deliver (ConnOpen live)) w)))
                    (conn_peer live) = None).
  { rewrite Hc, Hp. now apply get_delete_same. }
  split; [rewrite Ho; apply get_set_same|split; [exact Hnone|]].
  intros Hin. apply In_values in Hin as [k Hin].
  assert (Hget := Hin). apply In_get_Some in Hget.
  - assert (k = conn_peer live); [|subst k; congruence].
    rewrite Hc in Hget.
    destruct (String.eqb (conn_peer stale) k) eqn:E.
    + apply String.eqb_eq in E. subst k.
      rewrite get_delete_same in Hget; [discriminate Hget|assumption].
    + apply String.eqb_neq in E.
      rewrite get_delete_other in Hget by assumption.
      rewrite Ho in Hget.
      destruct (String.eqb (conn_peer live) k) eqn:E'.
      * apply String.eqb_eq in E'. auto.
      * apply String.eqb_neq in E'.
        rewrite get_set_other in Hget by assumption.
        symmetry. now apply Hkey.
  - rewrite Hc. now apply NoDup_keys_delete.
Qed.

Lemma close_of_other_connection_drops_entry_witness :
  Scenarios.bob_conn2 <> Examples.bob_conn /\
  ~ In Examples.bob_conn
      (JSMap.values
         (connections
            (run Scenarios.bob_twice
               [Ev (ConnOpen Examples.bob_conn);
                Ev (ConnClosed Scenarios.bob_conn2)]))).
Proof.
  split; [discriminate|].
  apply (close_of_other_connection_drops_entry Scenarios.bob_twice
           Examples.bob_conn Scenarios.bob_conn2).
  - reflexivity.
  - vm_compute. discriminate.
  - vm_compute. discriminate.
  - repeat split; try constructor; intros p c H; discriminate H.
Defined.

(** ** Chat *)

(** X9: what [sendMessage] puts on a connection is read back by the
    receiver's ['data'] callback as one [chat:message] with the sender name
    and the text of the sender's own echo; only the timestamp is the
    receiver's. *)
Theorem chat_round_trip (ws wr : World) (message : string)
    (now now' : Time) (c c' : DataConnection) :
  In c (JSMap.values (connections ws)) ->
  In (c, chat_payload (sender_name (user ws)) message)
    (sent (trace (exec (sendMessage message now) ws))) /\
  emitted (trace (exec (sendMessage message now) ws))
    = emitted (trace ws)
      ++ [("chat:message",
           ChatMessage (JStr (sender_name (user ws))) (JStr message) now)] /\
  on_conn_data c' (chat_payload (sender_name (user ws)) message) now' wr
    = (Normal tt,
       with_trace
         (trace wr
          ++ [Emit "chat:message"
                (ChatMessage (JStr (sender_name (user ws))) (JStr message)
                   now')])
         wr).
Proof.
  intros Hin. unfold exec. rewrite sendMessage_result. simpl.
  split; [|split; [|reflexivity]].
  - unfold sent. rewrite !flat_map_app. apply in_or_app. right.
    apply in_or_app. left. apply in_flat_map.
    exists (ConnSend c (chat_payload (sender_name (user ws)) message)).
    split; [|simpl; auto].
    apply in_map_iff. now exists c.
  - unfold emitted. rewrite !flat_map_app. simpl. f_equal. clear Hin.
    induction (JSMap.values (connections ws)); simpl; auto.
Qed.

Lemma chat_round_trip_witness :
  In (Examples.alice_conn, chat_payload "Anonymous" "hi")
    (sent (trace (exec (sendMessage "hi" 1%Z)
                    (run Examples.active
                       (events_only Examples.two_open_one_closed))))).
Proof.
  apply (chat_round_trip
           (run Examples.active (events_only Examples.two_open_one_closed))
           Examples.active "hi" 1%Z 2%Z Examples.alice_conn
           Examples.bob_conn).
  simpl. auto.
Defined.

(** X10: the test by which [UI.addChatMessage] marks a message as the
    user's own accepts the echo of [sendMessage] exactly when somebody with
    a non-empty name is signed in: without one the echo is sent as
    ['Anonymous'] and compared with ['You']. *)
Theorem own_echo_needs_a_name (u : option User) :
  is_own_message u (JStr (sender_name u)) =
  match u with
  | Some u' => negb (String.eqb (name u') "")
  | None => false
  end.
Proof.
  destruct u as [u'|]; [|reflexivity].
  unfold is_own_message, sender_name.
  destruct (String.eqb (name u') "") eqn:E; simpl; [reflexivity|].
  apply String.eqb_refl.
Qed.

(** ** Calls *)

(** X11: for a call handled once, ['stream'] followed by ['close'] publishes
    exactly [peer:stream] and then [peer:disconnect], each once, and leaves
    both maps of the registry as they were. *)
Theorem call_lifecycle_events (w : World) (call : MediaConnection)
    (remote : MediaStream) :
  installed call_eqb call (callHandlers w) = 1 ->
  emitted (trace (run w [Ev (CallStream call remote); Ev (CallClosed call)]))
    = emitted (trace w)
      ++ [("peer:stream", PeerStream (call_peer call) remote);
          ("peer:disconnect", PeerIdData (call_peer call))] /\
  peers (run w [Ev (CallStream call remote); Ev (CallClosed call)])
    = peers w /\
  connections (run w [Ev (CallStream call remote); Ev (CallClosed call)])
    = connections w.
Proof.
  intros Hn. unfold run, fold_left, step, deliver, exec, bind, gets. simpl.
  rewrite Hn. simpl. rewrite Hn. simpl.
  unfold emitted. rewrite !flat_map_app. simpl.
  rewrite <- app_assoc. auto.
Qed.

Lemma call_lifecycle_events_witness :
  emitted (trace (run Scenarios.bob_called
                    [Ev (CallStream Examples.bob_call Scenarios.bob_stream);
                     Ev (CallClosed Examples.bob_call)]))
    = emitted (trace Scenarios.bob_called)
      ++ [("peer:stream", PeerStream "bob" Scenarios.bob_stream);
          ("peer:disconnect", PeerIdData "bob")].
Proof.
  apply (call_lifecycle_events Scenarios.bob_called Examples.bob_call
           Scenarios.bob_stream).
  reflexivity.
Defined.

(** X12: an incoming call on the identity whose callbacks are installed once
    is answered with the local stream as it is at that moment (none before
    the capture), its callbacks are installed, and it takes the peer's entry
    in the media-peers map; a call that held the entry is not closed. *)
Theorem incoming_call_is_answered (w : World) (p : Peer)
    (call : MediaConnection) :
  installed peer_eqb p (peerHandlers w) = 1 ->
  deliver (IncomingCall p call) w =
  (Normal tt,
   with_peers (JSMap.set (peers w) (call_peer call) call)
     (with_callHandlers (callHandlers w ++ [call])
        (with_trace (trace w ++ [CallAnswer call (localStream w)]) w))).
Proof.
  intros Hn. unfold deliver, bind, gets. simpl. rewrite Hn.
  destruct w as [ps ls rc p0 cs u host nh ph ch cnh tr]. reflexivity.
Qed.

Lemma incoming_call_is_answered_witness :
  deliver (IncomingCall Examples.me Examples.bob_call) Examples.active =
  (Normal tt,
   with_peers
     (JSMap.set (peers Examples.active) "bob" Examples.bob_call)
     (with_callHandlers (callHandlers Examples.active ++ [Examples.bob_call])
        (with_trace
           (trace Examples.active
            ++ [CallAnswer Examples.bob_call (localStream Examples.active)])
           Examples.active))).
Proof.
  apply (incoming_call_is_answered Examples.active Examples.me
           Examples.bob_call).
  reflexivity.
Defined.

(** ** Leaving *)

(** X13: from any state the leave-room handler itself sends no message; it
    stops every track of the local stream and closes every call of the
    media-peers map, each once and in map order. *)
Theorem leaveRoom_closes_every_call (w : World) :
  sent (trace (exec leaveRoom w)) = sent (trace w) /\
  stopped_tracks (trace (exec leaveRoom w))
    = stopped_tracks (trace w)
      ++ match localStream w with
         | Some s => stream_tracks s
         | None => []
         end /\
  closed_calls (trace (exec leaveRoom w))
    = closed_calls (trace w) ++ JSMap.values (peers w).
Proof.
  unfold exec, leaveRoom, bind. rewrite stopMedia_result. simpl.
  assert (Hs : forall l : list nat, sent (map TrackStop l) = []).
  { induction l; simpl; auto. }
  assert (Hs' : forall l, sent (map CallClose l) = []).
  { induction l; simpl; auto. }
  assert (Ht : forall l : list nat, stopped_tracks (map TrackStop l) = l).
  { induction l; simpl; congruence. }
  assert (Ht' : forall l, stopped_tracks (map CallClose l) = []).
  { induction l; simpl; auto. }
  assert (Hc : forall l : list nat, closed_calls (map TrackStop l) = []).
  { induction l; simpl; auto. }
  assert (Hc' : forall l, closed_calls (map CallClose l) = l).
  { induction l; simpl; congruence. }
  unfold sent, stopped_tracks, closed_calls in *.
  rewrite !flat_map_app.
  destruct (localStream w) as [s|], (peer w); simpl;
    rewrite ?Hs, ?Hs', ?Ht, ?Ht', ?Hc, ?Hc', ?app_nil_r;
    auto.
Qed.

(** * Further properties of the event bus *)

Section BusFacts.
Context {Data W : Type}.
Implicit Types (ls : EventBus.Listeners Data W)
  (cb : EventBus.Callback Data W) (s : list (EventBus.Callback Data W)).

Lemma set_has_In s cb :
  EventBus.set_has Data W s cb = true <->
  In (EventBus.cb_id cb) (map EventBus.cb_id s).
Proof.
  unfold EventBus.set_has. rewrite existsb_exists, in_map_iff.
  split; intros [c [H1 H2]]; exists c.
  - apply Nat.eqb_eq in H2. auto.
  - split; auto. now apply Nat.eqb_eq.
Qed.

Lemma set_add_ids s cb :
  map EventBus.cb_id (EventBus.set_add Data W s cb) =
  if existsb (Nat.eqb (EventBus.cb_id cb)) (map EventBus.cb_id s)
  then map EventBus.cb_id s
  else map EventBus.cb_id s ++ [EventBus.cb_id cb].
Proof.
  unfold EventBus.set_add, EventBus.set_has.
  assert (H : existsb (fun c => EventBus.cb_id c =? EventBus.cb_id cb) s =
              existsb (Nat.eqb (EventBus.cb_id cb)) (map EventBus.cb_id s)).
  { induction s as [|c s IH]; simpl; auto.
    now rewrite IH, (Nat.eqb_sym (EventBus.cb_id c)). }
  rewrite H. clear H. destruct (existsb _ _); auto. now rewrite map_app.
Qed.

Lemma set_add_twice s cb :
  EventBus.set_add Data W (EventBus.set_add Data W s cb) cb =
  EventBus.set_add Data W s cb.
Proof.
  unfold EventBus.set_add at 1.
  assert (H : EventBus.set_has Data W (EventBus.set_add Data W s cb) cb
              = true); [|now rewrite H].
  apply set_has_In. rewrite set_add_ids.
  destruct (existsb _ _) eqn:E.
  - apply existsb_exists in E as [i [Hi E]].
    apply Nat.eqb_eq in E. now subst i.
  - apply in_or_app. right. simpl. auto.
Qed.

Lemma set_delete_ids s cb :
  map EventBus.cb_id (EventBus.set_delete Data W s cb) =
  filter (fun i => negb (i =? EventBus.cb_id cb)) (map EventBus.cb_id s).
Proof.
  unfold EventBus.set_delete. induction s as [|c s IH]; simpl; auto.
  destruct (EventBus.cb_id c =? EventBus.cb_id cb); simpl; congruence.
Qed.

Lemma subscribers_on ls event cb event' :
  EventBus.subscribers (EventBus.on ls event cb) event' =
  if String.eqb event event' then
    if existsb (Nat.eqb (EventBus.cb_id cb)) (EventBus.subscribers ls event)
    then EventBus.subscribers ls event
    else EventBus.subscribers ls event ++ [EventBus.cb_id cb]
  else EventBus.subscribers ls event'.
Proof.
  unfold EventBus.subscribers, EventBus.on.
  destruct (String.eqb event event') eqn:E.
  - apply String.eqb_eq in E. subst event'.
    destruct (JSMap.get ls event) as [s|] eqn:Hg;
      rewrite get_set_same, set_add_ids; reflexivity.
  - apply String.eqb_neq in E.
    destruct (JSMap.get ls event) as [s|]; now rewrite get_set_other.
Qed.

Lemma subscribers_off ls event cb event' :
  EventBus.subscribers (EventBus.off ls event cb) event' =
  if String.eqb event event' then
    filter (fun i => negb (i =? EventBus.cb_id cb))
      (EventBus.subscribers ls event)
  else EventBus.subscribers ls event'.
Proof.
  unfold EventBus.subscribers, EventBus.off.
  destruct (String.eqb event event') eqn:E.
  - apply String.eqb_eq in E. subst event'.
    destruct (JSMap.get ls event) as [s|] eqn:Hg.
    + now rewrite get_set_same, set_delete_ids.
    + now rewrite Hg.
  - apply String.eqb_neq in E.
    destruct (JSMap.get ls event) as [s|]; auto. now rewrite get_set_other.
Qed.

Lemma emit_invoked_prefix ls event (data : Data) (w : W) :
  exists k,
    snd (EventBus.emit ls event data w)
    = firstn k (EventBus.subscribers ls event).
Proof.
  unfold EventBus.emit, EventBus.subscribers.
  destruct (JSMap.get ls event) as [s|]; [|now exists 0].
  destruct (forEach_invokes_prefix s data w) as [k Hk].
  exists k. now rewrite Hk, firstn_map.
Qed.

Lemma NoDup_firstn {A : Type} (l : list A) k : NoDup l -> NoDup (firstn k l).
Proof.
  intros H. rewrite <- (firstn_skipn k l) in H.
  now apply NoDup_app_remove_r in H.
Qed.

Lemma NoDup_filter {A : Type} (f : A -> bool) (l : list A) :
  NoDup l -> NoDup (filter f l).
Proof.
  induction 1 as [|x l Hx Hl IH]; simpl; [constructor|].
  destruct (f x); auto. constructor; auto.
  intros Hin. apply filter_In in Hin. tauto.
Qed.
End BusFacts.

(** X14: registering the same callback twice for an event is registering it
    once; a registration leaves the subscribers of every other event alone
    and keeps the earlier subscribers of its event in their places. *)
Theorem on_is_idempotent (Data W : Type) (ls : EventBus.Listeners Data W)
    (event : string) (cb : EventBus.Callback Data W) :
  EventBus.on (EventBus.on ls event cb) event cb = EventBus.on ls event cb /\
  (forall event', event' <> event ->
     EventBus.subscribers (EventBus.on ls event cb) event'
     = EventBus.subscribers ls event') /\
  exists added,
    EventBus.subscribers (EventBus.on ls event cb) event
    = EventBus.subscribers ls event ++ added.
Proof.
  split; [|split].
  - unfold EventBus.on at 1.
    assert (H : exists s,
               JSMap.get (EventBus.on ls event cb) event
               = Some (EventBus.set_add Data W s cb) /\
               EventBus.on ls event cb
               = JSMap.set ls event (EventBus.set_add Data W s cb)).
    { unfold EventBus.on. destruct (JSMap.get ls event) as [s|].
      - exists s. now rewrite get_set_same.
      - exists []. now rewrite get_set_same. }
    destruct H as (s & Hg & Hon). rewrite Hg, set_add_twice, Hon.
    apply set_set_same.
  - intros event' Hne. rewrite subscribers_on.
    destruct (String.eqb event event') eqn:E; auto.
    apply String.eqb_eq in E. congruence.
  - rewrite subscribers_on, String.eqb_refl.
    destruct (existsb _ _); [exists []; now rewrite app_nil_r|eauto].
Qed.

(** X15: [events.off] removes that callback from the subscribers of that
    event and nothing else; the next [emit] of the event does not invoke
    it. *)
Theorem off_removes_the_callback (Data W : Type)
    (ls : EventBus.Listeners Data W) (event : string)
    (cb : EventBus.Callback Data W) (data : Data) (w : W) :
  EventBus.subscribers (EventBus.off ls event cb) event
    = filter (fun i => negb (i =? EventBus.cb_id cb))
        (EventBus.subscribers ls event) /\
  (forall event', event' <> event ->
     EventBus.subscribers (EventBus.off ls event cb) event'
     = EventBus.subscribers ls event') /\
  ~ In (EventBus.cb_id cb)
      (snd (EventBus.emit (EventBus.off ls event cb) event data w)).
Proof.
  split; [|split].
  - now rewrite subscribers_off, String.eqb_refl.
  - intros event' Hne. rewrite subscribers_off.
    destruct (String.eqb event event') eqn:E; auto.
    apply String.eqb_eq in E. congruence.
  - destruct (emit_invoked_prefix (EventBus.off ls event cb) event data w)
      as [k Hk].
    rewrite Hk, subscribers_off, String.eqb_refl. intros Hin.
    apply (In_nth_error) in Hin as [n Hn].
    assert (Hin : In (EventBus.cb_id cb)
                    (filter (fun i => negb (i =? EventBus.cb_id cb))
                       (EventBus.subscribers ls event))).
    { rewrite <- (firstn_skipn k (filter _ _)). apply in_or_app. left.
      eapply nth_error_In; eauto. }
    apply filter_In in Hin as [_ Hin]. now rewrite Nat.eqb_refl in Hin.
Qed.

(** X16: starting with no listeners, after any sequence of [on] and [off]
    calls no event has a callback registered twice, so [emit] invokes no
    callback more than once. *)
Theorem subscribers_never_repeat (Data W : Type)
    (ops : list (BusOps.BusOp Data W)) (event : string) (data : Data)
    (w : W) :
  NoDup (EventBus.subscribers (BusOps.apply_ops JSMap.empty ops) event) /\
  NoDup (snd (EventBus.emit (BusOps.apply_ops JSMap.empty ops) event data w)).
Proof.
  assert (H : forall ls : EventBus.Listeners Data W,
             (forall e, NoDup (EventBus.subscribers ls e)) ->
             forall e, NoDup (EventBus.subscribers
                                (BusOps.apply_ops ls ops) e)).
  { induction ops as [|op ops IH]; intros ls Hls e; simpl; auto.
    apply IH. clear IH e. intros e. destruct op as [ev cb|ev cb]; simpl.
    - rewrite subscribers_on. destruct (String.eqb ev e); auto.
      destruct (existsb _ _) eqn:E; auto.
      apply NoDup_app; auto.
      + constructor; [intros []|constructor].
      + intros i Hi [Heq|[]]. subst i.
        assert (existsb (Nat.eqb (EventBus.cb_id cb))
                  (EventBus.subscribers ls ev) = true); [|congruence].
        apply existsb_exists. exists (EventBus.cb_id cb).
        split; auto. apply Nat.eqb_refl.
    - rewrite subscribers_off. destruct (String.eqb ev e); auto.
      now apply NoDup_filter. }
  assert (H0 : NoDup (EventBus.subscribers
                        (BusOps.apply_ops JSMap.empty ops) event)).
  { apply H. intros e. constructor. }
  split; auto.
  destruct (emit_invoked_prefix (BusOps.apply_ops JSMap.empty ops) event
              data w) as [k Hk].
  rewrite Hk. now apply NoDup_firstn.
Qed.

(** X17: a callback just registered for an event is invoked by the next
    [emit] of that event whenever that [emit] returns, that is, whenever no
    subscriber throws. *)
Theorem new_subscriber_is_invoked (Data W : Type)
    (ls : EventBus.Listeners Data W) (event : string)
    (cb : EventBus.Callback Data W) (data : Data) (w w' : W) :
  fst (EventBus.emit (EventBus.on ls event cb) event data w)
    = EventBus.Returned w' ->
  In (EventBus.cb_id cb)
    (snd (EventBus.emit (EventBus.on ls event cb) event data w)).
Proof.
  intros Hret.
  assert (Hsub : In (EventBus.cb_id cb)
                   (EventBus.subscribers (EventBus.on ls event cb) event)).
  { rewrite subscribers_on, String.eqb_refl.
    destruct (existsb _ _) eqn:E.
    - apply existsb_exists in E as [i [Hi E]].
      apply Nat.eqb_eq in E. now subst i.
    - apply in_or_app. right. simpl. auto. }
  unfold EventBus.emit, EventBus.subscribers in *.
  destruct (JSMap.get (EventBus.on ls event cb) event) as [s|];
    [|contradiction].
  now rewrite (forEach_returned s data w w' Hret).
Qed.

Lemma new_subscriber_is_invoked_witness :
  In 1 (snd (EventBus.emit
               (EventBus.on JSMap.empty "chat:message" Examples.counter)
               "chat:message" tt 0)).
Proof.
  apply (new_subscriber_is_invoked unit nat JSMap.empty "chat:message"
           Examples.counter tt 0 1).
  reflexivity.
Defined.

(** * Properties of [security.sanitizeInput] *)

Section SanitizeFacts.
Import Security.

Lemma sanitize_cons c s :
  sanitize_string (String c s) =
  String.append (escape_char c) (sanitize_string s).
Proof.
  unfold sanitize_string, escape_char. cbn [replace_all].
  destruct (Ascii.eqb c amp) eqn:E1; [reflexivity|]. cbn [replace_all].
  destruct (Ascii.eqb c lt) eqn:E2; [reflexivity|]. cbn [replace_all].
  destruct (Ascii.eqb c gt) eqn:E3; [reflexivity|]. cbn [replace_all].
  destruct (Ascii.eqb c quot) eqn:E4; [reflexivity|]. cbn [replace_all].
  destruct (Ascii.eqb c apos) eqn:E5; reflexivity.
Qed.

(** The five successive replacements are one pass over the characters. *)
Lemma sanitize_is_escape s : sanitize_string s = escape s.
Proof.
  induction s as [|c s IH]; [reflexivity|].
  rewrite sanitize_cons, IH. reflexivity.
Qed.

Lemma string_forallb_app p a b :
  string_forallb p (String.append a b) =
  string_forallb p a && string_forallb p b.
Proof.
  induction a as [|x a IH]; simpl; auto. now rewrite IH, andb_assoc.
Qed.

Lemma escape_char_no_markup c :
  string_forallb (fun x => negb (is_markup x)) (escape_char c) = true.
Proof.
  unfold escape_char.
  destruct (Ascii.eqb c amp); [reflexivity|].
  destruct (Ascii.eqb c lt) eqn:E2; [reflexivity|].
  destruct (Ascii.eqb c gt) eqn:E3; [reflexivity|].
  destruct (Ascii.eqb c quot) eqn:E4; [reflexivity|].
  destruct (Ascii.eqb c apos) eqn:E5; [reflexivity|].
  simpl. unfold is_markup. now rewrite E2, E3, E4, E5.
Qed.

Lemma length_append a b :
  String.length (String.append a b) = String.length a + String.length b.
Proof. induction a; simpl; auto. Qed.

Lemma escape_char_length c :
  (is_special c = false -> escape_char c = String c EmptyString) /\
  (is_special c = true -> 4 <= String.length (escape_char c) <= 6).
Proof.
  unfold is_special, is_markup, escape_char.
  destruct (Ascii.eqb c amp); [simpl; split; [discriminate|lia]|].
  destruct (Ascii.eqb c lt); [simpl; split; [discriminate|lia]|].
  destruct (Ascii.eqb c gt); [simpl; split; [discriminate|lia]|].
  destruct (Ascii.eqb c quot); [simpl; split; [discriminate|lia]|].
  destruct (Ascii.eqb c apos); [simpl; split; [discriminate|lia]|].
  simpl. split; [reflexivity|discriminate].
Qed.

Lemma unescape_escape_char c rest :
  unescape_from 0 (String.append (escape_char c) rest) =
  String c (unescape_from 0 rest).
Proof.
  unfold escape_char.
  destruct (Ascii.eqb c amp) eqn:E1.
  { apply Ascii.eqb_eq in E1. subst c.
    change (String.append "&amp;" rest)
      with (String amp (String.append "amp;" rest)).
    cbn [unescape_from]. rewrite Ascii.eqb_refl.
    change (String.prefix "amp;" (String.append "amp;" rest)) with
      (String.prefix "" rest).
    replace (String.prefix "" rest) with true by now destruct rest.
    reflexivity. }
  destruct (Ascii.eqb c lt) eqn:E2.
  { apply Ascii.eqb_eq in E2. subst c.
    change (String.append "&lt;" rest)
      with (String amp (String.append "lt;" rest)).
    cbn [unescape_from]. rewrite Ascii.eqb_refl.
    change (String.prefix "amp;" (String.append "lt;" rest)) with false.
    change (String.prefix "lt;" (String.append "lt;" rest)) with
      (String.prefix "" rest).
    replace (String.prefix "" rest) with true by now destruct rest.
    reflexivity. }
  destruct (Ascii.eqb c gt) eqn:E3.
  { apply Ascii.eqb_eq in E3. subst c.
    change (String.append "&gt;" rest)
      with (String amp (String.append "gt;" rest)).
    cbn [unescape_from]. rewrite Ascii.eqb_refl.
    change (String.prefix "amp;" (String.append "gt;" rest)) with false.
    change (String.prefix "lt;" (String.append "gt;" rest)) with false.
    change (String.prefix "gt;" (String.append "gt;" rest)) with
      (String.prefix "" rest).
    replace (String.prefix "" rest) with true by now destruct rest.
    reflexivity. }
  destruct (Ascii.eqb c quot) eqn:E4.
  { apply Ascii.eqb_eq in E4. subst c.
    change (String.append "&quot;" rest)
      with (String amp (String.append "quot;" rest)).
    cbn [unescape_from]. rewrite Ascii.eqb_refl.
    change (String.prefix "amp;" (String.append "quot;" rest)) with false.
    change (String.prefix "lt;" (String.append "quot;" rest)) with false.
    change (String.prefix "gt;" (String.append "quot;" rest)) with false.
    change (String.prefix "quot;" (String.append "quot;" rest)) with
      (String.prefix "" rest).
    replace (String.prefix "" rest) with true by now destruct rest.
    reflexivity. }
  destruct (Ascii.eqb c apos) eqn:E5.
  { apply Ascii.eqb_eq in E5. subst c.
    change (String.append "&#039;" rest)
      with (String amp (String.append "#039;" rest)).
    cbn [unescape_from]. rewrite Ascii.eqb_refl.
    change (String.prefix "amp;" (String.append "#039;" rest)) with false.
    change (String.prefix "lt;" (String.append "#039;" rest)) with false.
    change (String.prefix "gt;" (String.append "#039;" rest)) with false.
    change (String.prefix "quot;" (String.append "#039;" rest)) with false.
    change (String.prefix "#039;" (String.append "#039;" rest)) with
      (String.prefix "" rest).
    replace (String.prefix "" rest) with true by now destruct rest.
    reflexivity. }
  simpl. now rewrite E1.
Qed.

Lemma unescape_escape s : unescape (escape s) = s.
Proof.
  unfold unescape. induction s as [|c s IH]; [reflexivity|].
  simpl escape. now rewrite unescape_escape_char, IH.
Qed.
End SanitizeFacts.

(** X18: the result of [sanitizeInput] on a string contains none of the
    characters [<], [>], the double quote and the apostrophe. *)
Theorem sanitize_leaves_no_markup (s : string) :
  string_forallb (fun c => negb (Security.is_markup c))
    (Security.sanitize_string s) = true.
Proof.
  rewrite sanitize_is_escape. induction s as [|c s IH]; [reflexivity|].
  simpl. now rewrite string_forallb_app, escape_char_no_markup, IH.
Qed.

Lemma escape_injective s1 s2 :
  Security.escape s1 = Security.escape s2 -> s1 = s2.
Proof.
  intros H. rewrite <- (unescape_escape s1), <- (unescape_escape s2).
  now rewrite H.
Qed.

(** X19: [sanitizeInput] loses nothing: reading the five entities back
    gives the input, so different strings have different results. *)
Theorem sanitize_is_injective (s1 s2 : string) :
  Security.unescape (Security.sanitize_string s1) = s1 /\
  (Security.sanitize_string s1 = Security.sanitize_string s2 -> s1 = s2).
Proof.
  split.
  - rewrite sanitize_is_escape. apply unescape_escape.
  - rewrite !sanitize_is_escape. apply escape_injective.
Qed.

(** X20: [sanitizeInput] returns a string unchanged exactly when the string
    has none of the five characters it replaces; otherwise the result is
    longer, and never more than six times as long.  So applying it twice
    differs from applying it once as soon as the input has such a
    character. *)
Theorem sanitize_fixed_points (s : string) :
  (Security.sanitize_string s = s <->
   string_forallb (fun c => negb (Security.is_special c)) s = true) /\
  String.length s <= String.length (Security.sanitize_string s)
    <= 6 * String.length s /\
  (string_forallb (fun c => negb (Security.is_special c)) s = false ->
   String.length s < String.length (Security.sanitize_string s)) /\
  (Security.sanitize_string (Security.sanitize_string s)
     = Security.sanitize_string s <->
   string_forallb (fun c => negb (Security.is_special c)) s = true).
Proof.
  assert (Hlen : forall t,
             String.length t <= String.length (Security.escape t)
               <= 6 * String.length t /\
             (string_forallb (fun c => negb (Security.is_special c)) t
                = false ->
              String.length t < String.length (Security.escape t))).
  { induction t as [|c t [IH1 IH2]]; simpl; [split; [lia|discriminate]|].
    rewrite length_append.
    destruct (escape_char_length c) as [Hn Hy].
    destruct (Security.is_special c) eqn:E; simpl.
    - specialize (Hy eq_refl). split; [lia|intros _; lia].
    - rewrite (Hn eq_refl). simpl. split; [lia|].
      intros H. specialize (IH2 H). lia. }
  assert (Hfix : forall t,
             string_forallb (fun c => negb (Security.is_special c)) t = true ->
             Security.escape t = t).
  { induction t as [|c t IH]; simpl; auto.
    intros H. apply andb_prop in H as [Hc Ht].
    apply negb_true_iff in Hc.
    destruct (escape_char_length c) as [Hn _].
    rewrite (Hn Hc), (IH Ht). reflexivity. }
  assert (Hiff : forall t,
             Security.escape t = t <->
             string_forallb (fun c => negb (Security.is_special c)) t = true).
  { intros t. split; [|apply Hfix].
    intros H.
    destruct (string_forallb (fun c => negb (Security.is_special c)) t)
      eqn:E; auto.
    destruct (Hlen t) as [_ Hlt]. specialize (Hlt E).
    rewrite H in Hlt. lia. }
  rewrite !sanitize_is_escape. split; [apply Hiff|].
  split; [apply Hlen|]. split; [apply Hlen|].
  split.
  - intros H. apply Hiff. now apply escape_injective.
  - intros H. now rewrite (Hfix s H), (Hfix s H).
Qed.

(** * Properties of the keyword analyses *)

Section AnalysisFacts.
Import AIService.

Lemma ceil_days_le x n :
  (ceil_days x <=? n)%Z = (x <=? n * msPerDay)%Z.
Proof.
  unfold ceil_days, msPerDay.
  change (1000 * 60 * 60 * 24)%Z with 86400000%Z.
  pose proof (Z.div_mod (- x) 86400000 ltac:(lia)) as Hdm.
  pose proof (Z.mod_pos_bound (- x) 86400000 ltac:(lia)) as Hb.
  destruct (Z.leb_spec (- (- x / 86400000)) n),
           (Z.leb_spec x (n * 86400000)); auto; lia.
Qed.

Lemma due_points_spec due now :
  due_points due now =
  match due with
  | DueAt ms =>
      if (ms - now <=? 1 * msPerDay)%Z then 3
      else if (ms - now <=? 3 * msPerDay)%Z then 2
      else if (ms - now <=? 7 * msPerDay)%Z then 1
      else 0
  | _ => 0
  end.
Proof.
  destruct due; simpl; auto. now rewrite !ceil_days_le.
Qed.

Lemma list_includes_In l w : list_includes l w = true <-> In w l.
Proof.
  unfold list_includes. rewrite existsb_exists. split.
  - intros [x [Hx E]]. apply String.eqb_eq in E. now subst.
  - intros H. exists w. split; auto. apply String.eqb_refl.
Qed.

Lemma prefix_forallb p k : forall s,
  String.prefix k s = true ->
  string_forallb p s = true -> string_forallb p k = true.
Proof.
  induction k as [|c k IH]; intros s Hpre Hs; simpl; auto.
  destruct s as [|c' s]; simpl in *; [discriminate|].
  destruct (ascii_dec c c') as [->|]; [|discriminate].
  apply andb_prop in Hs as [Hc Hs]. rewrite Hc. simpl. eauto.
Qed.

Lemma includes_forallb p k s :
  includes s k = true ->
  string_forallb p s = true -> string_forallb p k = true.
Proof.
  induction s as [|c s IH]; simpl; intros Hinc Hs.
  - rewrite orb_false_r in Hinc. destruct k; [reflexivity|discriminate].
  - apply orb_prop in Hinc as [Hpre|Hinc].
    + now apply (prefix_forallb p k (String c s)).
    + apply andb_prop in Hs as [_ Hs]. auto.
Qed.

Lemma split_from_no_space s : forall cur in_ws,
  string_forallb (fun c => negb (is_space c)) cur = true ->
  Forall (fun w => string_forallb (fun c => negb (is_space c)) w = true)
    (split_from s cur in_ws).
Proof.
  induction s as [|c s IH]; intros cur in_ws Hcur; simpl.
  - constructor; auto.
  - destruct (is_space c) eqn:E.
    + destruct in_ws; [|constructor; auto]; now apply IH.
    + apply IH. rewrite string_forallb_app, Hcur. simpl. now rewrite E.
Qed.

Lemma lower_upper_char c : lower_char (upper_char c) = lower_char c.
Proof. destruct c as [[] [] [] [] [] [] [] []]; reflexivity. Qed.

Lemma toLowerCase_toUpperCase s :
  toLowerCase (toUpperCase s) = toLowerCase s.
Proof.
  induction s as [|c s IH]; simpl; auto. now rewrite lower_upper_char, IH.
Qed.

Lemma slice0_length n : forall s,
  String.length (slice0 n s) = Nat.min n (String.length s).
Proof.
  induction n as [|n IH]; intros s; simpl; auto.
  destruct s as [|c s]; simpl; auto.
Qed.

Lemma slice0_prefix n : forall s, String.prefix (slice0 n s) s = true.
Proof.
  induction n as [|n IH]; intros s; simpl.
  - now destruct s.
  - destruct s as [|c s]; simpl; auto.
    destruct (ascii_dec c c); [auto|contradiction].
Qed.

Lemma set_add_NoDup ts w : NoDup ts -> NoDup (AIService.set_add ts w).
Proof.
  intros H. unfold AIService.set_add.
  destruct (list_includes ts w) eqn:E; auto.
  apply NoDup_app; auto.
  - constructor; [intros []|constructor].
  - intros x Hx [<-|[]].
    apply list_includes_In in Hx. congruence.
Qed.

Lemma scan_words_topics (P : string -> Prop) rest :
  forall ts actions,
    NoDup ts -> Forall P ts ->
    Forall (fun w => In w topicKeywords -> P w) rest ->
    NoDup (fst (scan_words rest ts actions)) /\
    Forall P (fst (scan_words rest ts actions)).
Proof.
  induction rest as [|w rest IH]; intros ts actions Hnd HP Hrest;
    cbn [scan_words fst]; auto.
  inversion Hrest as [|? ? Hw Hrest']; subst.
  destruct (list_includes topicKeywords w) eqn:E; [|now apply IH].
  apply IH; auto using set_add_NoDup.
  unfold AIService.set_add. destruct (list_includes ts w); auto.
  apply Forall_app. split; auto. constructor; auto.
  apply Hw. now apply list_includes_In.
Qed.
End AnalysisFacts.

(** X21: for a task that [prioritizeTasks] can score, the score is at most
    5; the task is rated ['High'] exactly when it is due within a day of the
    clock reading (overdue included), or has an urgent keyword and is due
    within seven days; it is rated ['Low'] exactly when it has no urgent
    keyword and is not due within seven days.  An urgent keyword without a
    readable due date is never ['High']. *)
Theorem priority_by_keyword_and_due_date (now : Z) (task : AIService.Task)
    (p : AIService.Prioritized) :
  AIService.prioritize now task = inr p ->
  AIService.priorityScore p <= 5 /\
  (AIService.suggestedPriority p = "High" <->
   AIService.due_within 1 now task \/
   (AIService.urgent_some AIService.urgentKeywords task = inr true /\
    AIService.due_within 7 now task)) /\
  (AIService.suggestedPriority p = "Low" <->
   AIService.urgent_some AIService.urgentKeywords task = inr false /\
   ~ AIService.due_within 7 now task).
Proof.
  unfold AIService.prioritize, AIService.due_within.
  destruct (AIService.urgent_some AIService.urgentKeywords task)
    as [e|urgent]; [discriminate|].
  intros [= <-]. simpl. rewrite due_points_spec.
  unfold AIService.msPerDay.
  change (1000 * 60 * 60 * 24)%Z with 86400000%Z.
  destruct (AIService.dueDate task) as [| |ms].
  - destruct urgent; simpl; repeat split; try lia;
      intuition (try discriminate; try congruence).
  - destruct urgent; simpl; repeat split; try lia;
      intuition (try discriminate; try congruence).
  - destruct (Z.leb_spec (ms - now) (1 * 86400000)),
             (Z.leb_spec (ms - now) (3 * 86400000)),
             (Z.leb_spec (ms - now) (7 * 86400000));
      try lia; destruct urgent; simpl; repeat split; try lia;
      intuition (try discriminate; try congruence; try lia).
Qed.

Lemma priority_by_keyword_and_due_date_witness :
  AIService.prioritize 0%Z Tasks.report_task =
    inr {| AIService.task_of := Tasks.report_task;
           AIService.priorityScore := 2;
           AIService.suggestedPriority := "Medium" |} /\
  AIService.priorityScore
    {| AIService.task_of := Tasks.report_task;
       AIService.priorityScore := 2;
       AIService.suggestedPriority := "Medium" |} <= 5.
Proof.
  split; [reflexivity|].
  apply (priority_by_keyword_and_due_date 0%Z Tasks.report_task).
  reflexivity.
Defined.

Lemma prioritize_from_spec clock tasks : forall index,
  (forall ps,
     AIService.prioritize_from index clock tasks = inr ps ->
     map AIService.task_of ps = tasks) /\
  ((exists e, AIService.prioritize_from index clock tasks = inl e) <->
   Exists (fun t =>
             exists e,
               AIService.urgent_some AIService.urgentKeywords t = inl e)
     tasks).
Proof.
  induction tasks as [|t tasks IH]; intros index;
    cbn [AIService.prioritize_from].
  - split; [now intros ps [= <-]|].
    split; [intros [e H]; discriminate H|intros H; inversion H].
  - destruct (IH (S index)) as [IH1 IH2].
    unfold AIService.prioritize.
    destruct (AIService.urgent_some AIService.urgentKeywords t)
      as [e|urgent] eqn:Ht.
    + split; [discriminate|]. split; eauto.
    + destruct (AIService.prioritize_from (S index) clock tasks)
        as [e|ps'] eqn:Hrest.
      * split; [discriminate|]. split; [|eauto].
        intros _. apply Exists_cons_tl. apply IH2. eauto.
      * split.
        -- intros ps [= <-]. simpl. f_equal. now apply IH1.
        -- split; [intros [e H]; discriminate H|].
           intros H. inversion H as [? ? [e He]|? ? Hex]; subst.
           ++ congruence.
           ++ apply IH2 in Hex as [e He]. discriminate He.
Qed.

(** X22: [prioritizeTasks] throws exactly when some task of the list cannot
    be scored (its title is missing, or its description is missing and
    needed), so one such task loses the whole result; otherwise it returns
    the tasks themselves, as many and in the same order. *)
Theorem prioritizeTasks_all_or_nothing (clock : nat -> Z)
    (tasks : list AIService.Task) :
  ((exists e, AIService.prioritizeTasks clock tasks = inl e) <->
   Exists (fun t =>
             exists e,
               AIService.urgent_some AIService.urgentKeywords t = inl e)
     tasks) /\
  (forall ps,
     AIService.prioritizeTasks clock tasks = inr ps ->
     map AIService.task_of ps = tasks /\ List.length ps = List.length tasks).
Proof.
  destruct (prioritize_from_spec clock tasks 0) as [H1 H2].
  split; [exact H2|]. intros ps H. specialize (H1 ps H).
  split; auto. rewrite <- H1. now rewrite length_map.
Qed.

(** X23: a task whose description is missing can be scored exactly when its
    title contains ['urgent'], the first keyword tried: with any of the
    other keywords in the title, or with none, scoring throws. *)
Theorem missing_description_needs_urgent (now : Z) (task : AIService.Task)
    (t : string) :
  AIService.title task = Some t ->
  AIService.description task = None ->
  ((exists p, AIService.prioritize now task = inr p) <->
   AIService.includes (AIService.toLowerCase t) "urgent" = true).
Proof.
  intros Ht Hd. unfold AIService.prioritize, AIService.urgentKeywords.
  cbn [AIService.urgent_some]. rewrite Ht, Hd.
  destruct (AIService.includes (AIService.toLowerCase t) "urgent").
  - split; eauto.
  - split; [intros [p H]; discriminate H|discriminate].
Qed.

Lemma missing_description_needs_urgent_witness :
  (exists p, AIService.prioritize 0%Z Tasks.urgent_bare = inr p) /\
  AIService.prioritize 0%Z Tasks.untitled_asap
    = inl (TypeError "Cannot read properties of undefined (toLowerCase)").
Proof.
  split; [|reflexivity].
  apply (missing_description_needs_urgent 0%Z Tasks.urgent_bare
           "URGENT call"); reflexivity.
Defined.

(** X24: the summary of [analyzeNote] is the note itself when the note has
    at most 100 characters, and otherwise its first 100 characters followed
    by three dots; it never has more than 103 characters. *)
Theorem summary_is_bounded (noteText : string) :
  String.length (AIService.summary (AIService.analyzeNote noteText)) <= 103 /\
  (String.length noteText <= 100 ->
   AIService.summary (AIService.analyzeNote noteText) = noteText) /\
  (100 < String.length noteText ->
   AIService.summary (AIService.analyzeNote noteText)
     = String.append (slice0 100 noteText) "..." /\
   String.prefix (slice0 100 noteText) noteText = true).
Proof.
  unfold AIService.analyzeNote.
  destruct (AIService.scan_words _ _ _) as [ts actions].
  cbn [AIService.summary].
  destruct (Nat.ltb_spec 100 (String.length noteText)) as [Hlt|Hle].
  - rewrite length_append, slice0_length.
    change (String.length "...") with 3.
    split; [lia|]. split; [lia|]. intros _. split; auto.
    apply slice0_prefix.
  - split; [lia|]. split; [auto|lia].
Qed.

(** X25: the topics of [analyzeNote] are without repetition; each is one of
    the five topic keywords and is a word of the note in lower case. *)
Theorem topics_are_keywords_of_the_note (noteText : string) :
  NoDup (AIService.topics (AIService.analyzeNote noteText)) /\
  Forall (fun w =>
            In w AIService.topicKeywords /\
            In w (AIService.split_ws (AIService.toLowerCase noteText)))
    (AIService.topics (AIService.analyzeNote noteText)).
Proof.
  unfold AIService.analyzeNote.
  pose proof (scan_words_topics
                (fun w =>
                   In w AIService.topicKeywords /\
                   In w (AIService.split_ws
                           (AIService.toLowerCase noteText)))
                (AIService.split_ws (AIService.toLowerCase noteText))
                [] []) as H.
  destruct (AIService.scan_words _ _ _) as [ts actions]. simpl in *.
  apply H; [constructor|constructor|].
  apply Forall_forall. auto.
Qed.

(** X26: for a note of ASCII characters the analyses do not depend on the
    case of the letters: the note in upper case has the topics, the
    suggested tasks and the sentiment of the note as written. *)
Theorem analyses_ignore_case (noteText : string) :
  is_ascii_string noteText = true ->
  AIService.topics (AIService.analyzeNote (toUpperCase noteText))
    = AIService.topics (AIService.analyzeNote noteText) /\
  AIService.suggestedTasks (AIService.analyzeNote (toUpperCase noteText))
    = AIService.suggestedTasks (AIService.analyzeNote noteText) /\
  AIService._analyzeSentiment (toUpperCase noteText)
    = AIService._analyzeSentiment noteText.
Proof.
  intros _.
  unfold AIService.analyzeNote, AIService._analyzeSentiment,
    AIService.sentiment_score.
  rewrite toLowerCase_toUpperCase.
  destruct (AIService.scan_words _ _ _) as [ts actions]. auto.
Qed.

Lemma analyses_ignore_case_witness :
  is_ascii_string Tasks.note = true /\
  AIService.topics (AIService.analyzeNote (toUpperCase Tasks.note))
    = AIService.topics (AIService.analyzeNote Tasks.note) /\
  AIService.suggestedTasks (AIService.analyzeNote (toUpperCase Tasks.note))
    = AIService.suggestedTasks (AIService.analyzeNote Tasks.note) /\
  AIService._analyzeSentiment (toUpperCase Tasks.note)
    = AIService._analyzeSentiment Tasks.note.
Proof.
  split; [reflexivity|].
  apply (analyses_ignore_case Tasks.note). reflexivity.
Defined.

(** X27: no word that [analyzeNote] or [_analyzeSentiment] looks at
    contains white space, so the action keyword ['need to'] is found in
    none of them: a note that says "need to" suggests no task by it. *)
Theorem need_to_never_matches (text : string) :
  Forall (fun w =>
            string_forallb (fun c => negb (AIService.is_space c)) w = true /\
            AIService.includes w "need to" = false)
    (AIService.split_ws (AIService.toLowerCase text)).
Proof.
  pose proof (split_from_no_space (AIService.toLowerCase text) "" false
                eq_refl) as H.
  unfold AIService.split_ws. apply Forall_forall. intros w Hw.
  rewrite Forall_forall in H. specialize (H w Hw). split; auto.
  destruct (AIService.includes w "need to") eqn:E; auto.
  apply (includes_forallb (fun c => negb (AIService.is_space c))) in E;
    [discriminate E|assumption].
Qed.

Example sanitize_example :
  Security.sanitize_string "<a href='x'>T&C</a>"
  = "&lt;a href=&#039;x&#039;&gt;T&amp;C&lt;/a&gt;".
Proof. reflexivity. Qed.

Example split_ws_example :
  AIService.split_ws " a  b " = [""; "a"; "b"; ""] /\
  AIService.split_ws "" = [""].
Proof. split; reflexivity. Qed.

Example analyzeNote_example :
  AIService.analyzeNote Tasks.note =
  {| AIService.summary := Tasks.note;
     AIService.topics := ["project"];
     AIService.suggestedTasks := ["must fix the bad build"];
     AIService.sentiment := "negative" |}.
Proof. reflexivity. Qed.

(** * Leaving from any state *)

(** X28: from any state the leave-room handler ends in the idle state, so
    leaving again changes nothing; [stopMedia] on its own keeps the room
    code, which only the handler clears. *)
Theorem leaveRoom_from_any_state (w : World) :
  idle (exec leaveRoom w) /\
  leaveRoom (exec leaveRoom w) = (Normal tt, exec leaveRoom w) /\
  roomCode (exec stopMedia w) = roomCode w.
Proof.
  split; [apply leaveRoom_makes_idle|].
  split; [apply leaveRoom_idle, leaveRoom_makes_idle|].
  unfold exec. now rewrite stopMedia_result.
Qed.

(** * Who receives a broadcast, for every history *)

Section SlotFacts.
Import PeerSlots.

Lemma slot_inv_same sl st st' w w' :
  (forall c, st c = Established -> st' c = Established) ->
  connections w' = connections w ->
  slot_inv sl st w -> slot_inv sl st' w'.
Proof.
  intros Hst Hc (Hnd & Hget & Hsl). unfold slot_inv. rewrite Hc.
  split; [auto|split; [auto|]].
  intros p c H. destruct (Hsl p c H). auto.
Qed.

Lemma slot_inv_open sl st w c0 :
  installed conn_eqb c0 (connHandlers w) <> 0 ->
  slot_inv sl st w ->
  slot_inv (fun p => slot_step p (sl p) (ConnOpen c0))
    (fun c => data_step c (st c) (ConnOpen c0))
    (exec (deliver (ConnOpen c0)) w).
Proof.
  intros Hn (Hnd & Hget & Hsl).
  destruct (deliver_open c0 w Hn) as (Hc & _).
  unfold slot_inv. rewrite Hc. simpl.
  split; [auto using NoDup_keys_set|split].
  - intros p. destruct (String.eqb (conn_peer c0) p) eqn:E.
    + apply String.eqb_eq in E. subst p. apply get_set_same.
    + apply String.eqb_neq in E. rewrite get_set_other by assumption. auto.
  - intros p c. destruct (String.eqb (conn_peer c0) p) eqn:E.
    + apply String.eqb_eq in E. intros [= <-].
      split; auto. now rewrite conn_eqb_refl.
    + intros H. destruct (Hsl p c H). split; auto.
      now destruct (conn_eqb c0 c).
Qed.

Lemma slot_inv_closed sl st w c0 :
  installed conn_eqb c0 (connHandlers w) <> 0 ->
  slot_inv sl st w ->
  slot_inv (fun p => slot_step p (sl p) (ConnClosed c0))
    (fun c => data_step c (st c) (ConnClosed c0))
    (exec (deliver (ConnClosed c0)) w).
Proof.
  intros Hn (Hnd & Hget & Hsl).
  destruct (deliver_closed c0 w Hnd Hn) as (Hc & _).
  unfold slot_inv. rewrite Hc. simpl.
  split; [auto using NoDup_keys_delete|split].
  - intros p. destruct (String.eqb (conn_peer c0) p) eqn:E.
    + apply String.eqb_eq in E. subst p. now apply get_delete_same.
    + apply String.eqb_neq in E. rewrite get_delete_other by assumption.
      auto.
  - intros p c. destruct (String.eqb (conn_peer c0) p) eqn:E;
      [discriminate|].
    intros H. destruct (Hsl p c H) as [Hp Hst]. split; auto.
    destruct (conn_eqb c0 c) eqn:E'; auto.
    apply conn_eqb_eq in E'. subst c.
    apply String.eqb_neq in E. contradiction.
Qed.

Lemma slot_inv_run h : forall sl st w,
  slot_inv sl st w ->
  attached w h = true ->
  slot_inv (fun p => fold_left (slot_step p) h (sl p))
    (fun c => fold_left (data_step c) h (st c))
    (run w (events_only h)).
Proof.
  induction h as [|e h IH]; intros sl st w Hinv Hatt; simpl; auto.
  simpl in Hatt. apply andb_prop in Hatt as [Hguard Hatt].
  apply (IH (fun p => slot_step p (sl p) e)
            (fun c => data_step c (st c) e)); auto.
  destruct e as [p call|p conn|call s|call|conn|conn data now|conn];
    try (apply (slot_inv_same sl st _ w); auto; now apply deliver_frame).
  - apply (slot_inv_same sl st _ w); auto; [|now apply deliver_frame].
    intros c H. simpl. rewrite H. now destruct (conn_eqb conn c).
  - apply slot_inv_open; auto.
    apply negb_true_iff, Nat.eqb_neq in Hguard. exact Hguard.
  - apply slot_inv_closed; auto.
    apply negb_true_iff, Nat.eqb_neq in Hguard. exact Hguard.
Qed.

Lemma values_keys {V : Type} (key : V -> string) (m : JSMap.t V) :
  (forall k v, In (k, v) m -> key v = k) ->
  map key (JSMap.values m) = JSMap.keys m.
Proof.
  induction m as [|[k v] m IH]; simpl; intros H; auto.
  rewrite (H k v) by auto. f_equal. apply IH. intros k' v' Hin. auto.
Qed.

Lemma run_events_user h : forall w, user (run w (events_only h)) = user w.
Proof.
  induction h as [|e h IH]; intros w; simpl; auto.
  rewrite IH. clear IH.
  destruct e as [p call|p conn|call s|call|conn|conn data now|conn];
    try (now apply deliver_frame).
  - destruct (Nat.eq_dec (installed conn_eqb conn (connHandlers w)) 0)
      as [Hz|Hnz].
    + now rewrite (deliver_not_installed _ conn w) by auto.
    + now apply deliver_open.
  - unfold deliver, exec, bind, gets; simpl.
    now apply (times_preserves (fun w0 => user w0 = user w)).
Qed.
End SlotFacts.

(** C5, as stated, fails: bob's first data channel is closed and his second
    is open, the ['close'] of the first having come after the ['open'] of
    the second.  Bob's data channel is open, the data-connections map is
    empty, and [sendMessage] sends to nobody. *)
Lemma sendMessage_misses_reconnected_peer :
  attached Examples.active PeerSlots.reconnect_late_close = true /\
  dataState PeerSlots.reconnect_late_close Examples.bob_conn = Established /\
  dataState PeerSlots.reconnect_late_close Scenarios.bob_conn2 = Closed /\
  connections
    (run Examples.active (events_only PeerSlots.reconnect_late_close))
    = JSMap.empty /\
  sent (trace (exec (sendMessage "hello" 7%Z)
                 (run Examples.active
                    (events_only PeerSlots.reconnect_late_close))))
    = [].
Proof. repeat split. Qed.

(** C5, amended: let the transport deliver any events, ['open'] and ['close']
    only for connections the coordinator has handled, starting with an empty
    data-connections map.  Then [sendMessage] completes; it sends the payload
    [{type: 'chat', sender, content}], with the user's name or ['Anonymous']
    as sender, once on each connection of the map and on no other, and then
    publishes exactly one [chat:message] echo, whatever the number of peers.
    The connections of the map are, per peer id, the connection of that peer
    that reported ['open'] last, unless a connection of that peer has
    reported ['close'] since; each of them is open, and no two belong to one
    peer.  When every peer has one data connection they are exactly the
    connections whose data channel is open. *)
Theorem sendMessage_reaches_registered_channels (w0 : World)
    (h : list TransportEvent) (message : string) (now : Time) :
  connections w0 = JSMap.empty ->
  attached w0 h = true ->
  exists targets sender,
    sender = match user w0 with
             | Some u => if String.eqb (name u) "" then "Anonymous"
                         else name u
             | None => "Anonymous"
             end /\
    sendMessage message now (run w0 (events_only h)) =
      (Normal tt,
       with_trace
         (trace (run w0 (events_only h))
          ++ map (fun c =>
                    ConnSend c
                      (JObj [("type", JStr "chat"); ("sender", JStr sender);
                             ("content", JStr message)]))
               targets
          ++ [Emit "chat:message"
                (ChatMessage (JStr sender) (JStr message) now)])
         (run w0 (events_only h))) /\
    NoDup targets /\
    NoDup (map conn_peer targets) /\
    (forall c, In c targets <-> PeerSlots.slot h (conn_peer c) = Some c) /\
    (forall c, In c targets -> dataState h c = Established) /\
    (one_channel_per_peer h = true ->
     forall c, In c targets <-> dataState h c = Established).
Proof.
  intros Hempty Hatt.
  assert (Hinv : PeerSlots.slot_inv (fun p => PeerSlots.slot h p)
                   (fun c => dataState h c) (run w0 (events_only h))).
  { apply (slot_inv_run h (fun _ => None) (fun _ => NoChannel)); auto.
    unfold PeerSlots.slot_inv. rewrite Hempty.
    split; [constructor|split]; [reflexivity|intros p c H; discriminate H]. }
  destruct Hinv as (Hnd & Hget & Hsl).
  assert (Hkey : forall k v,
             In (k, v) (connections (run w0 (events_only h))) ->
             conn_peer v = k).
  { intros k v Hin. apply (In_get_Some _ _ _ Hnd) in Hin.
    rewrite Hget in Hin. now apply Hsl in Hin. }
  assert (Hin : forall c,
             In c (JSMap.values (connections (run w0 (events_only h)))) <->
             PeerSlots.slot h (conn_peer c) = Some c).
  { intros c. rewrite In_values. split.
    - intros [k Hk]. assert (conn_peer c = k) by auto. subst k.
      apply (In_get_Some _ _ _ Hnd) in Hk. now rewrite Hget in Hk.
    - intros H. exists (conn_peer c). apply get_Some_In. now rewrite Hget. }
  exists (JSMap.values (connections (run w0 (events_only h)))),
         (sender_name (user w0)).
  split; [reflexivity|].
  rewrite sendMessage_result, run_events_user.
  split; [reflexivity|].
  split; [now apply (NoDup_values _ conn_peer)|].
  split; [now rewrite (values_keys conn_peer)|].
  split; [exact Hin|].
  split.
  - intros c Hc. apply Hin in Hc. now apply Hsl in Hc.
  - intros Hone c.
    assert (Ho : open_inv (data_conns h) (fun c => dataState h c)
                   (run w0 (events_only h))).
    { apply (open_inv_run (data_conns h)) with (st := fun _ => NoChannel);
        auto using incl_refl.
      - intros c1 c2. now apply one_channel_per_peer_inj.
      - unfold open_inv. rewrite Hempty.
        split; [constructor|split]; [intros p c' H|intros c' H];
          discriminate H. }
    destruct Ho as (_ & H2 & H3). rewrite In_values. split.
    + intros [k Hk]. apply (In_get_Some _ _ _ Hnd) in Hk.
      now apply H2 in Hk.
    + intros Hst. exists (conn_peer c). apply get_Some_In. now apply H3.
Qed.

Lemma sendMessage_reaches_registered_channels_witness :
  (connections Examples.active = JSMap.empty /\
   attached Examples.active PeerSlots.reconnect_late_close = true) /\
  exists targets sender,
    sender = match user Examples.active with
             | Some u => if String.eqb (name u) "" then "Anonymous"
                         else name u
             | None => "Anonymous"
             end /\
    sendMessage "hello" 7%Z
      (run Examples.active (events_only PeerSlots.reconnect_late_close)) =
      (Normal tt,
       with_trace
         (trace (run Examples.active
                   (events_only PeerSlots.reconnect_late_close))
          ++ map (fun c =>
                    ConnSend c
                      (JObj [("type", JStr "chat"); ("sender", JStr sender);
                             ("content", JStr "hello")]))
               targets
          ++ [Emit "chat:message"
                (ChatMessage (JStr sender) (JStr "hello") 7%Z)])
         (run Examples.active
            (events_only PeerSlots.reconnect_late_close))) /\
    NoDup targets /\
    NoDup (map conn_peer targets) /\
    (forall c,
       In c targets <->
       PeerSlots.slot PeerSlots.reconnect_late_close (conn_peer c) = Some c)
    /\
    (forall c,
       In c targets ->
       dataState PeerSlots.reconnect_late_close c = Established) /\
    (one_channel_per_peer PeerSlots.reconnect_late_close = true ->
     forall c,
       In c targets <->
       dataState PeerSlots.reconnect_late_close c = Established).
Proof.
  split; [split; reflexivity|].
  apply (sendMessage_reaches_registered_channels Examples.active
           PeerSlots.reconnect_late_close "hello" 7%Z); reflexivity.
Defined.
